(** * Schema inference of generate-schema.js

    A shallow embedding of [inferSchema] and [unifySchemas] from
    src/generate-schema.js, and the properties of the schema inference
    engine stated over it.

    JavaScript values live in a store: objects and arrays have an identity
    (a location), so that shared and cyclic graphs can be written down.
    [inferSchema] recurses without a bound in the source; here it takes a
    fuel argument, and [None] stands for a call that has not returned within
    that fuel. *)

From stdpp Require Import gmap strings list fin_maps.
From Stdlib Require Import ZArith Ascii.

Set Warnings "-register-all,-clear-no-such-hyp".
Local Open Scope string_scope.
Local Open Scope list_scope.

(** ** JavaScript values *)

(** A number is a double: a finite value [m * 2^e], NaN, or an infinity. *)
Inductive Number : Type :=
| Finite (m e : Z)
| NaN
| Infinity (negative : bool).

(** [Number.isInteger]. *)
Definition Number_isInteger (x : Number) : bool :=
  match x with
  | Finite m e => if (0 <=? e)%Z then true else (m mod 2 ^ (- e) =? 0)%Z
  | _ => false
  end.

Definition isNaN (x : Number) : bool :=
  match x with NaN => true | _ => false end.

Definition loc := nat.

(** [VOther] stands for the values whose [typeof] is none of "object",
    "string", "number", "boolean": undefined, symbols, bigints, functions. *)
Inductive Value : Type :=
| VNull
| VBoolean (b : bool)
| VNumber (x : Number)
| VString (s : string)
| VObject (a : loc)
| VOther.

Global Instance Number_eq_dec : EqDecision Number.
Proof. solve_decision. Defined.

Global Instance Value_eq_dec : EqDecision Value.
Proof. solve_decision. Defined.

(** What a location holds.  For an array, its elements ([Array.isArray] is
    true; arrays are dense).  For any other object, the list that
    [Object.entries] returns: its own enumerable string-keyed properties in
    enumeration order. *)
Inductive Object : Type :=
| Array (elements : list Value)
| Plain (entries : list (string * Value)).

(** The store of one call: the object graph, and the [visited] WeakSet. *)
Record Store : Type := mkStore {
  heap : loc → Object;
  visited : gset loc
}.

(** ** Schema fragments *)

(** A fragment is an object literal with some of the keys [type], [format],
    [items], [properties], [required], [anyOf]; an absent key is [None].
    [properties] is itself an object used as a map from key to fragment. *)
Inductive Fragment : Type := mkFragment {
  type : option string;
  format : option string;
  items : option Fragment;
  properties : option (gmap string Fragment);
  required : option (list string);
  anyOf : option (list Fragment)
}.

(** [{}] *)
Definition emptyFragment : Fragment :=
  mkFragment None None None None None None.

(** [{ type: t }] *)
Definition typed (t : string) : Fragment :=
  mkFragment (Some t) None None None None None.

(** [{ type: 'array', items: i }] *)
Definition arrayOf (i : Fragment) : Fragment :=
  mkFragment (Some "array") None (Some i) None None None.

(** [{ type: 'object', properties: p, required: r }] *)
Definition objectOf (p : gmap string Fragment) (r : list string) : Fragment :=
  mkFragment (Some "object") None None (Some p) (Some r) None.

(** [{ anyOf: l }] *)
Definition anyOfFragment (l : list Fragment) : Fragment :=
  mkFragment None None None None None (Some l).

(** [delete f.type] *)
Definition delete_type (f : Fragment) : Fragment :=
  mkFragment None (format f) (items f) (properties f) (required f) (anyOf f).

(** [f.format = x] *)
Definition set_format (f : Fragment) (x : string) : Fragment :=
  mkFragment (type f) (Some x) (items f) (properties f) (required f) (anyOf f).

(** The assignment [o[key] = v] on an ordinary object [o] created by [{}],
    with [v] an object.  It runs the object's [[Set]]: every key becomes an
    own property of [o], except "__proto__", which resolves to the accessor
    inherited from Object.prototype, whose setter replaces the prototype of
    [o] and creates no own property. *)
Definition Object_set (o : gmap string Fragment) (key : string) (v : Fragment)
  : gmap string Fragment :=
  if decide (key = "__proto__") then o else <[key := v]> o.

(** [Object.assign(target, source)]: [[Set]] on [target] for every own
    property of [source]. *)
Definition Object_assign (target source : gmap string Fragment)
  : gmap string Fragment :=
  map_fold (λ key v acc, Object_set acc key v) target source.

(** [schema.properties[key] = f] *)
Definition set_property (schema : Fragment) (key : string) (f : Fragment) : Fragment :=
  mkFragment (type schema) (format schema) (items schema)
    ((λ p, Object_set p key f) <$> properties schema)
    (required schema) (anyOf schema).

(** [schema.required.push(key)] *)
Definition push_required (schema : Fragment) (key : string) : Fragment :=
  mkFragment (type schema) (format schema) (items schema) (properties schema)
    ((λ r, r ++ [key]) <$> required schema) (anyOf schema).

(** ** A JavaScript [Set], as the list of its members in insertion order *)

Section JSSet.
Context {A : Type} `{EqDecision A}.

(** [set.add(x)] *)
Definition Set_add (s : list A) (x : A) : list A :=
  if decide (x ∈ s) then s else s ++ [x].

(** [new Set(l)], read back with spread or [Array.from]. *)
Definition Set_from (l : list A) : list A := foldl Set_add [] l.
End JSSet.

(** ** unifySchemas *)

(** The body of [schemas.forEach(s => ...)] in the object case, on the two
    accumulators [mergedProperties] and [allRequired]. *)
Definition merge_one (acc : gmap string Fragment * list string) (s : Fragment)
  : gmap string Fragment * list string :=
  let '(mergedProperties, allRequired) := acc in
  (match properties s with
   | Some p => Object_assign mergedProperties p
   | None => mergedProperties
   end,
   match required s with
   | Some r => foldl Set_add allRequired r
   | None => allRequired
   end).

Definition unifySchemas (schemas : list Fragment) : Fragment :=
  match schemas with
  | [] => emptyFragment
  | first :: _ =>
      let types := Set_from (type <$> schemas) in
      if decide (length types = 1) then
        let baseSchema := delete_type first in
        if decide (types !! 0 = Some (Some "object")) then
          let '(mergedProperties, allRequired) := foldl merge_one (∅, []) schemas in
          objectOf mergedProperties allRequired
        else baseSchema
      else anyOfFragment schemas
  end.

(** ** Strings: [includes] and the two regular expressions *)

(** [s.includes(needle)] *)
Fixpoint includes (s needle : string) : bool :=
  String.prefix needle s ||
  match s with
  | EmptyString => false
  | String _ s' => includes s' needle
  end.

(** [\d] *)
Definition is_digit (c : ascii) : bool :=
  (48 <=? nat_of_ascii c)%nat && (nat_of_ascii c <=? 57)%nat.

(** [\d{n}] at the head of [s]; the rest of [s] on a match. *)
Fixpoint digits (n : nat) (s : string) : option string :=
  match n with
  | 0 => Some s
  | S n' =>
      match s with
      | String c s' => if is_digit c then digits n' s' else None
      | EmptyString => None
      end
  end.

(** A literal character at the head of [s]. *)
Definition lit (c : ascii) (s : string) : option string :=
  match s with
  | String c' s' => if Ascii.eqb c c' then Some s' else None
  | EmptyString => None
  end.

(** A sequence of matchers anchored at the head of [s]; the rest of [s] on
    a match. *)
Fixpoint run (ms : list (string → option string)) (s : string) : option string :=
  match ms with
  | [] => Some s
  | m :: ms' =>
      match m s with
      | Some s' => run ms' s'
      | None => None
      end
  end.

(** [\d{4}-\d{2}-\d{2}] *)
Definition date_pattern : list (string → option string) :=
  [digits 4; lit "-"; digits 2; lit "-"; digits 2].

(** [T\d{2}:\d{2}:\d{2}] *)
Definition time_pattern : list (string → option string) :=
  [lit "T"; digits 2; lit ":"; digits 2; lit ":"; digits 2].

(** [value.match(/^\d{4}-\d{2}-\d{2}$/)] is not null: the pattern matches
    and nothing is left. *)
Definition match_date (value : string) : bool :=
  match run date_pattern value with
  | Some EmptyString => true
  | _ => false
  end.

(** [value.match(/^\d{4}-\d{2}-\d{2}T\d{2}:\d{2}:\d{2}/)] is not null: the
    pattern matches a prefix. *)
Definition match_date_time (value : string) : bool :=
  match run (date_pattern ++ time_pattern) value with
  | Some _ => true
  | None => false
  end.

(** ** The host's built-ins *)

(** [new URL(value)] and [Date.parse(value)] belong to the JavaScript host,
    not to this repository; the development is parametric in them.
    [URL_new value] is [None] when the constructor throws, and otherwise the
    serialised URL. *)
Class Platform : Type := {
  URL_new : string → option string;
  Date_parse : string → Number
}.

(** ** The inference monad: state passing over [Store], [None] for no result *)

Definition M (A : Type) : Type := Store → option (A * Store).

Definition ret {A} (x : A) : M A := λ st, Some (x, st).

Definition bind {A B} (c : M A) (k : A → M B) : M B :=
  λ st, match c st with
        | Some (x, st') => k x st'
        | None => None
        end.

Notation "'let*' x := c 'in' k" := (bind c (λ x, k))
  (at level 10, x binder, c at level 100, k at level 200).

(** No result: the recursion is deeper than the fuel. *)
Definition out_of_fuel {A} : M A := λ _, None.

(** Reading the object at a location. *)
Definition deref (a : loc) : M Object := λ st, Some (heap st a, st).

(** [visited.has(value)] *)
Definition visited_has (a : loc) : M bool :=
  λ st, Some (bool_decide (a ∈ visited st), st).

(** [visited.add(value)] *)
Definition visited_add (a : loc) : M unit :=
  λ st, Some ((), mkStore (heap st) ({[a]} ∪ visited st)).

(** [visited.delete(value)] *)
Definition visited_delete (a : loc) : M unit :=
  λ st, Some ((), mkStore (heap st) (visited st ∖ {[a]})).

(** [l.map(f)] with an effectful [f], left to right. *)
Fixpoint mapM {A B} (f : A → M B) (l : list A) : M (list B) :=
  match l with
  | [] => ret []
  | x :: l' =>
      let* y := f x in
      let* ys := mapM f l' in
      ret (y :: ys)
  end.

(** [for (const x of l) acc = body(acc, x)] *)
Fixpoint forM {A S} (body : S → A → M S) (acc : S) (l : list A) : M S :=
  match l with
  | [] => ret acc
  | x :: l' =>
      let* acc' := body acc x in
      forM body acc' l'
  end.

(** ** inferSchema *)

(** The body of the loop over [Object.entries(value)]; [infer] is the
    recursive call [val => inferSchema(val, visited)]. *)
Definition add_entry (infer : Value → M Fragment) (schema : Fragment)
    (entry : string * Value) : M Fragment :=
  let '(key, val) := entry in
  let* f := infer val in
  ret (push_required (set_property schema key f) key).

Section Infer.
Context {platform : Platform}.

(** The string branch of [inferSchema] (lines 76-100). *)
Definition inferString (value : string) : Fragment :=
  let schema := typed "string" in
  match URL_new value with
  | Some _ => set_format schema "uri"
  | None =>
      if includes value "@" && includes value "." then
        set_format schema "email"
      else if match_date value && negb (isNaN (Date_parse value)) then
        set_format schema "date"
      else if match_date_time value && negb (isNaN (Date_parse value)) then
        set_format schema "date-time"
      else schema
  end.

Fixpoint inferSchema (fuel : nat) (value : Value) : M Fragment :=
  match fuel with
  | 0 => out_of_fuel
  | S fuel =>
      match value with
      | VNull => ret (typed "null")
      | VObject a =>
          let* obj := deref a in
          match obj with
          | Array elements =>
              if decide (length elements = 0) then
                ret (arrayOf emptyFragment)
              else
                let* itemSchemas := mapM (inferSchema fuel) elements in
                let unifiedSchema := unifySchemas itemSchemas in
                ret (arrayOf unifiedSchema)
          | Plain entries =>
              let* seen := visited_has a in
              if seen then ret (typed "object")
              else
                let* _ := visited_add a in
                let* schema :=
                  forM (add_entry (inferSchema fuel)) (objectOf ∅ []) entries in
                let* _ := visited_delete a in
                ret schema
          end
      | VString s => ret (inferString s)
      | VNumber x =>
          ret (typed (if Number_isInteger x then "integer" else "number"))
      | VBoolean _ => ret (typed "boolean")
      | VOther => ret (typed "string")
      end
  end.
End Infer.

(** ** The statements' vocabulary *)

(** Keeping the first occurrence of every element ("deduplicated, in
    first-seen order"). *)
Fixpoint first_seen {A} `{EqDecision A} (l : list A) : list A :=
  match l with
  | [] => []
  | x :: l' => x :: filter (λ y, y ≠ x) (first_seen l')
  end.

(** All inputs' required-key lists, one after the other. *)
Definition required_keys (schemas : list Fragment) : list string :=
  concat ((λ s, default [] (required s)) <$> schemas).

(** The sub-schema that the last fragment of the sequence binding [key]
    gives to it ("last-write-wins"). *)
Definition last_write (key : string) (schemas : list Fragment) : option Fragment :=
  last (omap (λ s, properties s ≫= (.!! key)) schemas).

(** The invariant of object fragments: [required] has no duplicates and
    lists exactly the keys of [properties]. *)
Definition required_matches_properties (f : Fragment) : Prop :=
  match properties f, required f with
  | Some p, Some r => NoDup r ∧ ∀ key, key ∈ r ↔ is_Some (p !! key)
  | _, _ => True
  end.

(** Every [anyOf] fragment inside [f] lies within the [items] of an array
    fragment: none is met from [f] through [properties], or through the
    [items] of a fragment whose type is not "array". *)
Fixpoint anyOf_confined (f : Fragment) : bool :=
  match anyOf f with Some _ => false | None => true end
  && (if decide (type f = Some "array") then true
      else match items f with Some g => anyOf_confined g | None => true end)
  && match properties f with
     | Some p => map_fold (λ _ g acc, anyOf_confined g && acc) true p
     | None => true
     end.

(** A value that is not an object reference. *)
Definition primitive (v : Value) : Prop :=
  match v with VObject _ => False | _ => True end.

Section FormatRules.
Context {platform : Platform}.

(** The format rules in the order the specification lists them: each a
    test and the format it attaches. *)
Definition format_rules (value : string) : list (bool * string) :=
  [ (bool_decide (is_Some (URL_new value)), "uri");
    (includes value "@" && includes value ".", "email");
    (match_date value && negb (isNaN (Date_parse value)), "date");
    (match_date_time value && negb (isNaN (Date_parse value)), "date-time") ].

(** First match wins. *)
Definition first_match (rules : list (bool * string)) : option string :=
  snd <$> head (filter (λ r, fst r = true) rules).

(** What the host's URL parser and [Date.parse] do on the strings of the
    examples: only "https://example.com" is an absolute URL, and the two
    ISO strings are valid dates. *)
Record HostFacts : Prop := {
  url_https : is_Some (URL_new "https://example.com");
  url_date : URL_new "2024-01-15" = None;
  url_date_time : URL_new "2024-01-15T10:00:00Z" = None;
  url_email : URL_new "user@example.com" = None;
  url_hello : URL_new "hello" = None;
  parse_date : isNaN (Date_parse "2024-01-15") = false;
  parse_date_time : isNaN (Date_parse "2024-01-15T10:00:00Z") = false
}.
End FormatRules.

(** ** Sample data *)

(** A small host to run the statements on.  Its URL parser accepts the
    strings that begin with a scheme (a letter, then letters, digits, "+",
    "-" or "."), followed by ":"; its [Date.parse] yields a time value for
    the strings of the two ISO shapes and NaN for all others. *)
Definition is_alpha (c : ascii) : bool :=
  let n := nat_of_ascii c in
  ((65 <=? n)%nat && (n <=? 90)%nat) || ((97 <=? n)%nat && (n <=? 122)%nat).

Fixpoint scheme_rest (s : string) : bool :=
  match s with
  | EmptyString => false
  | String c s' =>
      if Ascii.eqb c ":" then true
      else if is_alpha c || is_digit c || Ascii.eqb c "+" || Ascii.eqb c "-"
              || Ascii.eqb c "."
      then scheme_rest s'
      else false
  end.

Definition has_scheme (s : string) : bool :=
  match s with
  | EmptyString => false
  | String c s' => is_alpha c && scheme_rest s'
  end.

Definition sampleHost : Platform := {|
  URL_new := λ s, if has_scheme s then Some s else None;
  Date_parse := λ s, if match_date s || match_date_time s then Finite 0 0 else NaN
|}.

Definition one : Value := VNumber (Finite 1 0).
Definition two : Value := VNumber (Finite 2 0).

(** The object graphs of the examples, by location:
    0: [[1, 2]]   1: [[1, "x"]]   2: [[]]
    3: [[{"a":1}, {"a":2,"b":"x"}]] with its elements at 4 and 5
    6: [a = []; a.push(a)]
    7: [o = {n: 1}; o.self = o]
    8: [{left: s, right: s}] with the shared [s = {n: 1}] at 9
    10: the object parsed from the JSON text [{"__proto__": 1}] *)
Definition sampleHeap (a : loc) : Object :=
  match a with
  | 0 => Array [one; two]
  | 1 => Array [one; VString "x"]
  | 2 => Array []
  | 3 => Array [VObject 4; VObject 5]
  | 4 => Plain [("a", one)]
  | 5 => Plain [("a", two); ("b", VString "x")]
  | 6 => Array [VObject 6]
  | 7 => Plain [("n", one); ("self", VObject 7)]
  | 8 => Plain [("left", VObject 9); ("right", VObject 9)]
  | 9 => Plain [("n", one)]
  | 10 => Plain [("__proto__", one)]
  | _ => Plain []
  end.

(** A fresh call: nothing visited yet. *)
Definition sampleStore : Store := mkStore sampleHeap ∅.

(** ** JSON documents *)

(** What [JSON.parse] yields, as a tree: [generateSchema] hands such a value
    to [inferSchema]. *)
Inductive JSON : Type :=
| JNull
| JBoolean (b : bool)
| JNumber (x : Number)
| JString (s : string)
| JArray (elements : list JSON)
| JObject (members : list (string * JSON)).

(** The value [v] in the object graph [h] is the document [j]: every array
    and object of the document sits at some location (two positions may
    share one). *)
Inductive represents (h : loc → Object) : Value → JSON → Prop :=
| represents_null : represents h VNull JNull
| represents_boolean b : represents h (VBoolean b) (JBoolean b)
| represents_number x : represents h (VNumber x) (JNumber x)
| represents_string s : represents h (VString s) (JString s)
| represents_array a vs js :
    h a = Array vs →
    Forall2 (represents h) vs js →
    represents h (VObject a) (JArray js)
| represents_object a es ms :
    h a = Plain es →
    Forall2 (λ e m, e.1 = m.1 ∧ represents h e.2 m.2) es ms →
    represents h (VObject a) (JObject ms).

(** Nesting depth of a document. *)
Fixpoint depth (j : JSON) : nat :=
  match j with
  | JArray js => S (foldr (λ j acc, depth j `max` acc) 0 js)
  | JObject ms => S (foldr (λ m acc, depth m.2 `max` acc) 0 ms)
  | _ => 0
  end.

Section InferJSON.
Context {platform : Platform}.

(** The recursion of [inferSchema] on a document, without store or visited
    set. *)
Fixpoint inferJSON (j : JSON) : Fragment :=
  match j with
  | JNull => typed "null"
  | JBoolean _ => typed "boolean"
  | JNumber x => typed (if Number_isInteger x then "integer" else "number")
  | JString s => inferString s
  | JArray [] => arrayOf emptyFragment
  | JArray js => arrayOf (unifySchemas (map inferJSON js))
  | JObject ms =>
      foldl (λ schema m, push_required (set_property schema m.1 (inferJSON m.2)) m.1)
            (objectOf ∅ []) ms
  end.
End InferJSON.

(** The values an object holds: the elements of an array, the property
    values of any other object. *)
Definition held (o : Object) : list Value :=
  match o with
  | Array elements => elements
  | Plain entries => entries.*2
  end.

Section Alike.
Context {platform : Platform}.

(** Two documents of the same shape: the same nesting and the same keys,
    numbers that are both integers or both not, any booleans, and strings
    that get the same format. *)
Inductive alike : JSON → JSON → Prop :=
| alike_null : alike JNull JNull
| alike_boolean b1 b2 : alike (JBoolean b1) (JBoolean b2)
| alike_number x1 x2 :
    Number_isInteger x1 = Number_isInteger x2 →
    alike (JNumber x1) (JNumber x2)
| alike_string s1 s2 :
    first_match (format_rules s1) = first_match (format_rules s2) →
    alike (JString s1) (JString s2)
| alike_array js1 js2 :
    Forall2 alike js1 js2 → alike (JArray js1) (JArray js2)
| alike_object ms1 ms2 :
    Forall2 (λ m1 m2, m1.1 = m2.1 ∧ alike m1.2 m2.2) ms1 ms2 →
    alike (JObject ms1) (JObject ms2).
End Alike.

(** ** site-assets.json and the two tools that write to it *)

(** [s.replace(/\\/g, '/')]: every backslash becomes a slash. *)
Fixpoint replace_backslashes (s : string) : string :=
  match s with
  | EmptyString => EmptyString
  | String c s' =>
      String (if Ascii.eqb c "\" then "/"%char else c) (replace_backslashes s')
  end.

(** A schema in site-assets.json: a JSON value read from the file, or a
    fragment that [inferSchema] has built. *)
Inductive StoredSchema : Type :=
| FromFile (j : JSON)
| Inferred (f : Fragment).

(** The entries of site-assets.json, with the members the tools read or
    write as fields and all others kept in [members]. *)
Module Part.
Record t : Type := mk {
  assetType : option string;
  schema : option StoredSchema;
  members : list (string * JSON)
}.
End Part.

Module Contains.
Record t : Type := mk {
  type : option string;
  parts : list Part.t;
  members : list (string * JSON)
}.
End Contains.

Module Asset.
Record t : Type := mk {
  path : string;
  type : option string;
  contains : option Contains.t;
  schema : option StoredSchema;
  members : list (string * JSON)
}.
End Asset.

(** [asset.contains?.type] *)
Definition contains_type (asset : Asset.t) : option string :=
  Asset.contains asset ≫= Contains.type.

(** [asset.schema = schema] *)
Definition set_asset_schema (schema : Fragment) (asset : Asset.t) : Asset.t :=
  Asset.mk (Asset.path asset) (Asset.type asset) (Asset.contains asset)
    (Some (Inferred schema)) (Asset.members asset).

(** [part.schema = schema] *)
Definition set_part_schema (schema : Fragment) (part : Part.t) : Part.t :=
  Part.mk (Part.assetType part) (Some (Inferred schema)) (Part.members part).

(** [asset.contains.parts[jsonPartIndex].schema = schema] *)
Definition set_json_part_schema (schema : Fragment) (jsonPartIndex : nat)
    (asset : Asset.t) : Asset.t :=
  Asset.mk (Asset.path asset) (Asset.type asset)
    ((λ c, Contains.mk (Contains.type c)
             (alter (set_part_schema schema) jsonPartIndex (Contains.parts c))
             (Contains.members c)) <$> Asset.contains asset)
    (Asset.schema asset) (Asset.members asset).

(** How [main] of generate-schema.js ends: the schema printed to stdout, the
    process exited with status 1, an uncaught TypeError, or site-assets.json
    saved with new assets. *)
Inductive Outcome : Type :=
| Printed (schema : Fragment)
| Exited
| Threw
| Saved (assets : list Asset.t).

Section GenerateSchemaMain.
(** [path.dirname], of the host. *)
Variable path_dirname : string → string.

(** [main] of generate-schema.js from line 266 on: finding the asset of the
    target and storing the schema in it.  [findIndex] is [list_find], with
    [None] for -1. *)
Definition recordSchema (isDirectory : bool) (inputPath targetPath : string)
    (schema : Fragment) (assets : list Asset.t) : Outcome :=
  let normalizedInput := replace_backslashes inputPath in
  let normalizedTargetPath := replace_backslashes targetPath in
  let '(assetIndex, isComboJson) :=
    if isDirectory then
      (fst <$> list_find (λ asset,
                  replace_backslashes (Asset.path asset) = normalizedInput ∧
                  Asset.type asset = Some "directory") assets,
       false)
    else
      match list_find (λ asset,
               replace_backslashes (Asset.path asset) = normalizedTargetPath)
              assets with
      | Some (i, _) => (Some i, false)
      | None =>
          let dir := path_dirname normalizedTargetPath in
          match list_find (λ asset,
                   replace_backslashes (Asset.path asset) = dir ∧
                   Asset.type asset = Some "directory" ∧
                   contains_type asset = Some "combo") assets with
          | Some (i, _) => (Some i, true)
          | None => (None, false)
          end
      end in
  match assetIndex with
  | None => Printed schema
  | Some i =>
      match assets !! i with
      | None => Threw
      | Some asset =>
          if isComboJson ||
             (isDirectory && bool_decide (contains_type asset = Some "combo"))
          then
            match Asset.contains asset with
            | None => Threw
            | Some c =>
                match list_find (λ p, Part.assetType p = Some "json")
                        (Contains.parts c) with
                | None => Exited
                | Some (jsonPartIndex, _) =>
                    Saved (alter (set_json_part_schema schema jsonPartIndex)
                             i assets)
                end
            end
          else Saved (alter (set_asset_schema schema) i assets)
      end
  end.
End GenerateSchemaMain.

(** [main] of the add-asset tool, where it puts the new asset into the list
    (its [path] is [targetPath]): over the first asset of that path, or at
    the end. *)
Definition putAsset (targetPath : string) (asset : Asset.t)
    (assets : list Asset.t) : list Asset.t :=
  match list_find (λ a, Asset.path a = targetPath) assets with
  | Some (existingIndex, _) => <[existingIndex := asset]> assets
  | None => assets ++ [asset]
  end.

(** [[a-zA-Z0-9]] and [[A-Z]] *)
Definition is_upper (c : ascii) : bool :=
  (65 <=? nat_of_ascii c)%nat && (nat_of_ascii c <=? 90)%nat.

Definition is_alnum (c : ascii) : bool := is_alpha c || is_digit c.

(** [label.replace(/[^a-zA-Z0-9]/g, '')] *)
Fixpoint strip_non_alnum (s : string) : string :=
  match s with
  | EmptyString => EmptyString
  | String c s' =>
      if is_alnum c then String c (strip_non_alnum s') else strip_non_alnum s'
  end.

(** [c.toLowerCase()] on a letter of [[A-Z]] *)
Definition lower (c : ascii) : ascii := ascii_of_nat (nat_of_ascii c + 32).

(** [s.replace(/^[A-Z]/, c => c.toLowerCase())] *)
Definition lower_first (s : string) : string :=
  match s with
  | String c s' => if is_upper c then String (lower c) s' else s
  | EmptyString => EmptyString
  end.

(** [varName] of [generateHandlerFile]. *)
Definition varName (label : string) : string :=
  lower_first (strip_non_alnum label).

(** Two assets that differ in schemas at most: the same path, type and
    other members, the same kind of contents, and part for part the same
    asset type and other members. *)
Definition same_but_schemas (a a' : Asset.t) : Prop :=
  Asset.path a' = Asset.path a ∧
  Asset.type a' = Asset.type a ∧
  Asset.members a' = Asset.members a ∧
  match Asset.contains a, Asset.contains a' with
  | None, None => True
  | Some c, Some c' =>
      Contains.type c' = Contains.type c ∧
      Contains.members c' = Contains.members c ∧
      Forall2 (λ p p', Part.assetType p' = Part.assetType p ∧
                       Part.members p' = Part.members p)
              (Contains.parts c) (Contains.parts c')
  | _, _ => False
  end.

(** More sample data.  A graph with a cycle through an object and an
    array, by location:
    0: [o = {children: [o, [1]]}], its array at 1 and the inner array at 2
    3: [{a: 2}] *)
Definition loopHeap (a : loc) : Object :=
  match a with
  | 0 => Plain [("children", VObject 1)]
  | 1 => Array [VObject 0; VObject 2]
  | 2 => Array [one]
  | 3 => Plain [("a", two)]
  | _ => Plain []
  end.

Definition loopStore : Store := mkStore loopHeap ∅.

(** The document at location 3 of the sample store. *)
Definition sampleDocument : JSON :=
  JArray [JObject [("a", JNumber (Finite 1 0))];
          JObject [("a", JNumber (Finite 2 0)); ("b", JString "x")]].

(** A site-assets.json with a JSON file asset (its path written with a
    backslash) and a combo directory of an image part and a JSON part. *)
Definition sampleAssets : list Asset.t :=
  [ Asset.mk "content\property.json" (Some "json") None
      (Some (FromFile (JObject [("type", JString "object")])))
      [("label", JString "Property Information")];
    Asset.mk "gallery" (Some "directory")
      (Some (Contains.mk (Some "combo")
               [Part.mk (Some "image") None [("maxSize", JNumber (Finite 2097152 0))];
                Part.mk (Some "json") None [("maxSize", JNumber (Finite 5120 0))]]
               []))
      None [("handler", JString "handlers/gallery.js")] ].

Definition sampleNewAsset : Asset.t :=
  Asset.mk "content/about.json" (Some "json") None None
    [("label", JString "About")].

(** A stand-in for [path.dirname] on paths of the form [dir/name]: what
    comes before the last slash, and "." when there is no slash. *)
Fixpoint before_last_slash (s : string) : option string :=
  match s with
  | EmptyString => None
  | String c s' =>
      match before_last_slash s' with
      | Some d => Some (String c d)
      | None => if Ascii.eqb c "/" then Some EmptyString else None
      end
  end.

Definition sample_dirname (s : string) : string :=
  default "." (before_last_slash s).

(** The vocabulary on small inputs. *)
Example Set_from_keeps_first_occurrences :
  Set_from ["b"; "a"; "b"; "c"; "a"] = ["b"; "a"; "c"].
Proof. reflexivity. Qed.

Example first_seen_keeps_first_occurrences :
  first_seen ["b"; "a"; "b"; "c"; "a"] = ["b"; "a"; "c"].
Proof. reflexivity. Qed.

Example last_write_takes_the_later_fragment :
  last_write "a" [objectOf {["a" := typed "integer"]} ["a"];
                  typed "object";
                  objectOf {["a" := typed "string"]} ["a"]]
    = Some (typed "string").
Proof. reflexivity. Qed.

Example anyOf_in_a_property_is_not_confined :
  anyOf_confined (objectOf {["k" := anyOfFragment []]} ["k"]) = false.
Proof. reflexivity. Qed.

Example anyOf_in_array_items_is_confined :
  anyOf_confined (objectOf {["k" := arrayOf (anyOfFragment [])]} ["k"]) = true.
Proof. reflexivity. Qed.

Example match_date_anchored_at_both_ends :
  match_date "2024-01-15" = true ∧ match_date "2024-01-15T10:00:00Z" = false ∧
  match_date_time "2024-01-15T10:00:00Z" = true ∧
  match_date_time "2024-01-15" = false ∧ match_date "x2024-01-15" = false.
Proof. done. Qed.

Example Number_isInteger_five_and_five_and_a_half :
  Number_isInteger (Finite 5 0) = true ∧ Number_isInteger (Finite 11 (-1)) = false.
Proof. done. Qed.

(** * Properties *)

(** ** Insertion-ordered sets *)

Section JSSetFacts.
Context {A : Type} `{EqDecision A}.
Implicit Types (s l : list A) (x y : A).

Lemma Set_add_elem s x y : y ∈ Set_add s x ↔ y ∈ s ∨ y = x.
Proof.
  unfold Set_add. case_decide.
  - split; [by left | intros [?| ->]; done].
  - rewrite elem_of_app, list_elem_of_singleton. done.
Qed.

Lemma foldl_Set_add_elem l s y : y ∈ foldl Set_add s l ↔ y ∈ s ∨ y ∈ l.
Proof.
  revert s. induction l as [|x l IH]; intros s; simpl.
  - rewrite elem_of_nil. intuition.
  - rewrite IH, Set_add_elem, elem_of_cons. intuition.
Qed.

Lemma Set_add_NoDup s x : NoDup s → NoDup (Set_add s x).
Proof.
  intros Hs. unfold Set_add. case_decide; [done|].
  apply NoDup_app. split_and!; [done| |apply NoDup_singleton].
  intros y Hy ->%list_elem_of_singleton. done.
Qed.

Lemma foldl_Set_add_NoDup l s : NoDup s → NoDup (foldl Set_add s l).
Proof.
  revert s. induction l as [|x l IH]; intros s Hs; simpl; [done|].
  by apply IH, Set_add_NoDup.
Qed.

(** Adding only members leaves the set as it is. *)
Lemma foldl_Set_add_members l s : (∀ x, x ∈ l → x ∈ s) → foldl Set_add s l = s.
Proof.
  induction l as [|x l IH]; intros Hl; simpl; [done|].
  unfold Set_add at 2. rewrite decide_True by (apply Hl; left).
  apply IH. intros y Hy. apply Hl. by right.
Qed.



Lemma Set_from_elem l y : y ∈ Set_from l ↔ y ∈ l.
Proof.
  unfold Set_from. rewrite foldl_Set_add_elem, elem_of_nil. intuition.
Qed.

Lemma Set_from_NoDup l : NoDup (Set_from l).
Proof. apply foldl_Set_add_NoDup, NoDup_nil_2. Qed.

(** One member exactly when all elements agree. *)
Lemma Set_from_all_equal x l :
  (∀ y, y ∈ l → y = x) → Set_from (x :: l) = [x].
Proof.
  intros Hl. unfold Set_from. simpl. unfold Set_add at 2.
  rewrite decide_False by apply not_elem_of_nil. simpl.
  apply foldl_Set_add_members. intros y ->%Hl. by left.
Qed.

Lemma Set_from_two l x y : x ∈ l → y ∈ l → x ≠ y → length (Set_from l) ≠ 1.
Proof.
  intros Hx%Set_from_elem Hy%Set_from_elem Hne Hlen.
  destruct (Set_from l) as [|z [|??]]; simplify_eq/=.
  apply list_elem_of_singleton in Hx, Hy. congruence.
Qed.
End JSSetFacts.

(** ** Property assignment *)

Lemma Object_set_lookup o key v k :
  Object_set o key v !! k =
    if decide (key = k ∧ key ≠ "__proto__") then Some v else o !! k.
Proof.
  unfold Object_set. destruct (decide (key = "__proto__")) as [->|Hp].
  - rewrite decide_False; [done|]. by intros [_ ?].
  - rewrite lookup_insert. repeat case_decide; intuition congruence.
Qed.

(** [Object.assign] copies every own property but "__proto__". *)
Lemma Object_assign_union target source :
  Object_assign target source = delete "__proto__" source ∪ target.
Proof.
  unfold Object_assign.
  apply (map_fold_weak_ind (λ r m, r = delete "__proto__" m ∪ target)).
  - by rewrite delete_empty, (left_id_L ∅ (∪)).
  - intros i x m r Hi ->. unfold Object_set. case_decide as Hp.
    + subst i. by rewrite delete_insert_eq.
    + rewrite delete_insert_ne by done. by rewrite insert_union_l.
Qed.

Lemma Object_assign_lookup target source k :
  source !! "__proto__" = None →
  Object_assign target source !! k =
    match source !! k with Some v => Some v | None => target !! k end.
Proof.
  intros Hp. rewrite Object_assign_union, delete_id by done.
  rewrite lookup_union. destruct (source !! k), (target !! k); done.
Qed.

(** ** The two accumulators of the object merge *)

Lemma foldl_merge_one schemas mp ar :
  foldl merge_one (mp, ar) schemas =
    (foldl (λ mp s, match properties s with
                    | Some p => Object_assign mp p
                    | None => mp
                    end) mp schemas,
     foldl Set_add ar (required_keys schemas)).
Proof.
  revert mp ar. induction schemas as [|s schemas IH]; intros mp ar; [done|].
  cbn [foldl]. unfold merge_one at 2. rewrite IH. f_equal.
  unfold required_keys. rewrite fmap_cons. simpl. rewrite foldl_app.
  by destruct (required s).
Qed.

Lemma merged_properties_lookup schemas mp ar k :
  (∀ s p, s ∈ schemas → properties s = Some p → p !! "__proto__" = None) →
  (foldl merge_one (mp, ar) schemas).1 !! k =
    match last_write k schemas with Some v => Some v | None => mp !! k end.
Proof.
  revert mp ar. induction schemas as [|s schemas IH] using rev_ind;
    intros mp ar Hp; [done|].
  rewrite foldl_app. simpl.
  destruct (foldl merge_one (mp, ar) schemas) as [mp' ar'] eqn:Hfold.
  assert (mp' !! k = match last_write k schemas with
                     | Some v => Some v | None => mp !! k end) as Hmp'.
  { specialize (IH mp ar). rewrite Hfold in IH. apply IH.
    intros s' p Hs'. apply Hp. apply elem_of_app. by left. }
  unfold last_write. rewrite omap_app. simpl.
  destruct (properties s) as [p|] eqn:Hprops; simpl.
  - rewrite Object_assign_lookup.
    2:{ apply (Hp s); [|done]. apply elem_of_app. right. by left. }
    destruct (p !! k) as [v|]; simpl.
    + by rewrite last_snoc.
    + by rewrite app_nil_r.
  - by rewrite app_nil_r.
Qed.

(** ** Loops in the monad *)

(** A [map] whose callback hands the store back unchanged does so too, and
    relates the elements pointwise. *)
Lemma mapM_restore {A B} (f : A → M B) (R : A → B → Prop) l st ys st' :
  (∀ x y st1, x ∈ l → f x st = Some (y, st1) → st1 = st ∧ R x y) →
  mapM f l st = Some (ys, st') →
  st' = st ∧ Forall2 R l ys.
Proof.
  revert ys. induction l as [|x l IH]; intros ys Hf Hrun.
  - injection Hrun as <- <-. by split.
  - simpl in Hrun. unfold bind in Hrun.
    destruct (f x st) as [[y st1]|] eqn:Hx; [|done].
    destruct (Hf x y st1 ltac:(left) Hx) as [-> HR].
    destruct (mapM f l st) as [[ys' st2]|] eqn:Hl; [|done].
    injection Hrun as <- <-.
    destruct (IH ys') as [-> HR']; [|done|].
    + intros x' y' st1' Hx'. apply Hf. by right.
    + split; [done|]. by constructor.
Qed.

(** A loop invariant for [forM], indexed by the elements already done. *)
Lemma forM_invariant {A S} (body : S → A → M S)
    (I : list A → S → Store → Prop) l acc st r st' :
  I [] acc st →
  (∀ done x rest acc st acc' st',
     l = done ++ x :: rest → I done acc st →
     body acc x st = Some (acc', st') → I (done ++ [x]) acc' st') →
  forM body acc l st = Some (r, st') →
  I l r st'.
Proof.
  intros Hinit Hstep.
  assert (∀ todo done acc st,
            l = done ++ todo → I done acc st →
            forM body acc todo st = Some (r, st') → I l r st') as Hgen.
  { induction todo as [|x todo IH]; intros done acc0 st0 Hl Hdone Hrun.
    - injection Hrun as <- <-. by rewrite Hl, app_nil_r.
    - simpl in Hrun. unfold bind in Hrun.
      destruct (body acc0 x st0) as [[acc1 st1]|] eqn:Hx; [|done].
      apply (IH (done ++ [x]) acc1 st1); [|by eapply Hstep|done].
      by rewrite <-app_assoc. }
  by apply (Hgen l [] acc st).
Qed.

(** A loop whose body returns, with the store unchanged, returns. *)
Lemma forM_returns {A S} (body : S → A → M S) (I : list A → S → Prop) l acc st :
  I [] acc →
  (∀ done x rest acc,
     l = done ++ x :: rest → I done acc →
     ∃ acc', body acc x st = Some (acc', st) ∧ I (done ++ [x]) acc') →
  ∃ r, forM body acc l st = Some (r, st) ∧ I l r.
Proof.
  intros Hinit Hstep.
  assert (∀ todo done acc,
            l = done ++ todo → I done acc →
            ∃ r, forM body acc todo st = Some (r, st) ∧ I l r) as Hgen.
  { induction todo as [|x todo IH]; intros done acc0 Hl Hdone.
    - exists acc0. split; [done|]. by rewrite Hl, app_nil_r.
    - destruct (Hstep done x todo acc0 Hl Hdone) as (acc1 & Hx & Hdone').
      destruct (IH (done ++ [x]) acc1) as (r & Hr & HI); [|done|].
      { by rewrite <-app_assoc. }
      exists r. split; [|done]. simpl. unfold bind. by rewrite Hx. }
  by apply (Hgen l [] acc).
Qed.

(** Both loops are monotone in their callback. *)
Lemma mapM_mono {A B} (f g : A → M B) l st r :
  (∀ x st r, f x st = Some r → g x st = Some r) →
  mapM f l st = Some r → mapM g l st = Some r.
Proof.
  intros Hfg. revert st r. induction l as [|x l IH]; intros st r; [done|].
  simpl. unfold bind.
  destruct (f x st) as [[y st1]|] eqn:Hx; [|done]. rewrite (Hfg _ _ _ Hx).
  destruct (mapM f l st1) as [[ys st2]|] eqn:Hl; [|done]. by rewrite (IH _ _ Hl).
Qed.

Lemma forM_mono {A S} (body body' : S → A → M S) l acc st r :
  (∀ acc x st r, body acc x st = Some r → body' acc x st = Some r) →
  forM body acc l st = Some r → forM body' acc l st = Some r.
Proof.
  intros Hb. revert acc st r. induction l as [|x l IH]; intros acc st r; [done|].
  simpl. unfold bind.
  destruct (body acc x st) as [[acc1 st1]|] eqn:Hx; [|done].
  rewrite (Hb _ _ _ _ Hx). apply IH.
Qed.

(** ** Confinement of [anyOf] *)

Lemma anyOf_confined_properties (p : gmap string Fragment) :
  map_fold (λ _ g acc, anyOf_confined g && acc) true p = true ↔
  map_Forall (λ _ g, anyOf_confined g = true) p.
Proof.
  apply (map_fold_weak_ind
           (λ r m, r = true ↔ map_Forall (λ _ g, anyOf_confined g = true) m)).
  - split; [intros _; apply map_Forall_empty | done].
  - intros i x m r Hi IH. rewrite andb_true_iff, IH, map_Forall_insert by done.
    done.
Qed.

Lemma Object_set_confined (p : gmap string Fragment) key f :
  anyOf_confined f = true →
  map_Forall (λ _ g, anyOf_confined g = true) p →
  map_Forall (λ _ g, anyOf_confined g = true) (Object_set p key f).
Proof.
  intros Hf Hp. unfold Object_set. case_decide; [done|].
  by apply map_Forall_insert_2.
Qed.

(** ** inferSchema: the store, the shape of the result, the fuel *)

Section InferFacts.
Context {platform : Platform}.

Lemma add_entry_Some infer schema key val st r st' :
  add_entry infer schema (key, val) st = Some (r, st') →
  ∃ f, infer val st = Some (f, st') ∧
       r = push_required (set_property schema key f) key.
Proof.
  unfold add_entry, bind, ret. destruct (infer val st) as [[f st1]|]; [|done].
  intros [= <- <-]. by exists f.
Qed.

(** The string branch computes the first matching rule. *)
Lemma inferString_first_match value :
  inferString value =
    mkFragment (Some "string") (first_match (format_rules value))
      None None None None.
Proof.
  unfold inferString, first_match, format_rules.
  destruct (URL_new value) as [u|]; [done|].
  destruct (includes value "@" && includes value "."); [done|].
  destruct (match_date value && negb (isNaN (Date_parse value))); [done|].
  destruct (match_date_time value && negb (isNaN (Date_parse value))); done.
Qed.

(** [inferSchema] at an array and at an object, one step unfolded. *)
Lemma inferSchema_array fuel a st elements :
  heap st a = Array elements →
  inferSchema (S fuel) (VObject a) st =
    if decide (length elements = 0) then Some (arrayOf emptyFragment, st)
    else match mapM (inferSchema fuel) elements st with
         | Some (itemSchemas, st1) => Some (arrayOf (unifySchemas itemSchemas), st1)
         | None => None
         end.
Proof.
  intros Ha. simpl. unfold bind, deref. rewrite Ha. case_decide; [done|].
  by destruct (mapM _ _ _) as [[??]|].
Qed.

Lemma inferSchema_object fuel a st entries :
  heap st a = Plain entries →
  inferSchema (S fuel) (VObject a) st =
    if bool_decide (a ∈ visited st) then Some (typed "object", st)
    else match forM (add_entry (inferSchema fuel)) (objectOf ∅ []) entries
                 (mkStore (heap st) ({[a]} ∪ visited st)) with
         | Some (schema, st1) =>
             Some (schema, mkStore (heap st1) (visited st1 ∖ {[a]}))
         | None => None
         end.
Proof.
  intros Ha. simpl. unfold bind, deref. rewrite Ha.
  unfold visited_has. case_bool_decide; [done|].
  unfold visited_add. by destruct (forM _ _ _ _) as [[??]|].
Qed.

(** A call that returns hands the store back as it received it. *)
Lemma inferSchema_restores fuel value st f st' :
  inferSchema fuel value st = Some (f, st') → st' = st.
Proof.
  revert value st f st'.
  induction fuel as [|fuel IH]; intros value st f st' Hrun; [done|].
  destruct value as [| | | |a|]; simpl in Hrun;
    try (by injection Hrun as <- <-).
  unfold bind, deref in Hrun. destruct (heap st a) as [elements|entries].
  - case_decide; [by injection Hrun as <- <-|].
    destruct (mapM _ _ _) as [[itemSchemas st1]|] eqn:Hmap; [|done].
    injection Hrun as <- <-.
    apply (mapM_restore _ (λ _ _, True)) in Hmap as [-> _]; [done|].
    intros x y st1' _ Hx. split; [|done]. by eapply IH.
  - unfold visited_has, visited_add, visited_delete, ret in Hrun.
    case_bool_decide as Hseen; [by injection Hrun as <- <-|].
    destruct (forM _ _ _ _) as [[schema st1]|] eqn:Hloop; [|done].
    injection Hrun as <- <-.
    apply (forM_invariant _ (λ _ _ s, s = mkStore (heap st) ({[a]} ∪ visited st)))
      in Hloop.
    + subst st1. destruct st as [h vis]. simpl in *. f_equal. set_solver.
    + done.
    + intros done [key val] rest acc s acc' s' _ -> Hbody.
      apply add_entry_Some in Hbody as (g & Hg & _). by eapply IH.
Qed.
(** C10.  The fragment returned by [inferSchema] always has a [type] key
    and no [anyOf] key, and every [anyOf] fragment inside it lies within
    the [items] of an array fragment. *)
Theorem inferSchema_top_level_typed fuel value st f st' :
  inferSchema fuel value st = Some (f, st') →
  is_Some (type f) ∧ anyOf f = None ∧ anyOf_confined f = true.
Proof.
  revert value st f st'.
  induction fuel as [|fuel IH]; intros value st f st' Hrun; [done|].
  destruct value as [| |x|s|a|]; simpl in Hrun;
    try (injection Hrun as <- <-; by eauto).
  { injection Hrun as <- <-. by destruct (Number_isInteger x); eauto. }
  { injection Hrun as <- <-. rewrite inferString_first_match. by eauto. }
  unfold bind, deref in Hrun. destruct (heap st a) as [elements|entries].
  - case_decide; [injection Hrun as <- <-; by eauto|].
    destruct (mapM _ _ _) as [[itemSchemas st1]|]; [|done].
    injection Hrun as <- <-. by eauto.
  - unfold visited_has, visited_add, visited_delete, ret in Hrun.
    case_bool_decide; [injection Hrun as <- <-; by eauto|].
    destruct (forM _ _ _ _) as [[schema st1]|] eqn:Hloop; [|done].
    injection Hrun as <- <-.
    apply (forM_invariant _
             (λ _ schema _,
                type schema = Some "object" ∧ anyOf schema = None ∧
                items schema = None ∧
                ∃ p, properties schema = Some p ∧
                     map_Forall (λ _ g, anyOf_confined g = true) p))
      in Hloop.
    + destruct Hloop as (Htype & Hany & Hitems & p & Hprops & Hp).
      split_and!; [by rewrite Htype|done|].
      destruct schema as [t fm i ps r ao]. simpl in *. subst. simpl.
      by apply anyOf_confined_properties.
    + split_and!; [done..|]. exists ∅. split; [done|]. apply map_Forall_empty.
    + intros done [key val] rest acc s acc' s' _
        (Htype & Hany & Hitems & p & Hprops & Hp) Hbody.
      apply add_entry_Some in Hbody as (g & Hg & ->).
      apply IH in Hg as (_ & _ & Hg). simpl. rewrite Hprops. simpl.
      split_and!; [done..|]. eexists. split; [done|].
      by apply Object_set_confined.
Qed.

(** More fuel never changes a result. *)
Lemma inferSchema_fuel_mono (fuel fuel' : nat) value st r :
  (fuel ≤ fuel')%nat →
  inferSchema fuel value st = Some r → inferSchema fuel' value st = Some r.
Proof.
  revert fuel' value st r.
  induction fuel as [|fuel IH]; intros fuel' value st r Hle Hrun; [done|].
  destruct fuel' as [|fuel']; [lia|].
  assert (∀ v st r, inferSchema fuel v st = Some r →
                    inferSchema fuel' v st = Some r) as Hrec.
  { intros. apply (IH fuel'); [lia|done]. }
  destruct value as [| | | |a|]; simpl in *; try done.
  unfold bind, deref in *. destruct (heap st a) as [elements|entries].
  - case_decide; [done|].
    destruct (mapM (inferSchema fuel) _ _) as [[itemSchemas st1]|] eqn:Hmap;
      [|done].
    by rewrite (mapM_mono _ _ _ _ _ Hrec Hmap).
  - unfold visited_has, visited_add, ret in *. case_bool_decide; [done|].
    destruct (forM (add_entry (inferSchema fuel)) _ _ _)
      as [[schema st1]|] eqn:Hloop; [|done].
    assert (∀ acc x s r', add_entry (inferSchema fuel) acc x s = Some r' →
              add_entry (inferSchema fuel') acc x s = Some r') as Hbody.
    { intros acc [key val] s r'. unfold add_entry, bind.
      destruct (inferSchema fuel val s) as [[g s1]|] eqn:Hg; [|done].
      by rewrite (Hrec _ _ _ Hg). }
    by rewrite (forM_mono _ _ _ _ _ _ Hbody Hloop).
Qed.
End InferFacts.

(** ** The invariant of object fragments, away from "__proto__" *)

Lemma elem_of_concat {A} (x : A) (ls : list (list A)) :
  x ∈ concat ls ↔ ∃ l, x ∈ l ∧ l ∈ ls.
Proof.
  induction ls as [|l ls IH]; simpl.
  - split; [by intros ?%elem_of_nil|]. by intros (l & _ & ?%elem_of_nil).
  - rewrite elem_of_app, IH. split.
    + intros [Hx|(l' & Hx & Hl')].
      * exists l. split; [done|]. by left.
      * exists l'. split; [done|]. by right.
    + intros (l' & Hx & [->|Hl']%elem_of_cons); [by left|]. right. by exists l'.
Qed.

Section RequiredInvariant.
Context {platform : Platform}.

(** X12.  An object whose keys are distinct and none of which is
    "__proto__" is inferred as a fragment whose [required] lists exactly the
    keys of its [properties], once each, in the order of the entries. *)
Lemma inferSchema_required_matches fuel a st entries f st' :
  heap st a = Plain entries →
  NoDup entries.*1 →
  "__proto__" ∉ entries.*1 →
  inferSchema fuel (VObject a) st = Some (f, st') →
  required_matches_properties f ∧
  (is_Some (required f) → required f = Some entries.*1).
Proof.
  intros Ha Hnd Hproto Hrun. destruct fuel as [|fuel]; [done|].
  rewrite (inferSchema_object _ _ _ entries) in Hrun by done.
  case_bool_decide.
  { injection Hrun as <- _. split; [done|]. by intros [? ?]. }
  destruct (forM _ _ _ _) as [[schema st1]|] eqn:Hloop; [|done].
  injection Hrun as <- _.
  apply (forM_invariant _
           (λ done schema _,
              ∃ p, properties schema = Some p ∧ required schema = Some done.*1 ∧
                   ∀ k, k ∈ done.*1 ↔ is_Some (p !! k))) in Hloop.
  - destruct Hloop as (p & Hp & Hr & Hkeys).
    unfold required_matches_properties. rewrite Hp, Hr. by eauto.
  - exists ∅. split_and!; [done..|]. intros k. rewrite lookup_empty. split.
    + by intros ?%elem_of_nil.
    + by intros [? ?].
  - intros done [k' v'] rest acc s acc' s' Hl (p & Hp & Hr & Hkeys) Hbody.
    apply add_entry_Some in Hbody as (g & _ & ->). simpl. rewrite Hp, Hr. simpl.
    assert (k' ≠ "__proto__") as Hk'.
    { intros ->. apply Hproto. rewrite Hl, fmap_app, fmap_cons.
      apply elem_of_app. right. by left. }
    exists (<[k' := g]> p). split_and!.
    + unfold Object_set. by rewrite decide_False.
    + by rewrite fmap_app.
    + intros k. rewrite fmap_app, elem_of_app, lookup_insert_is_Some, Hkeys.
      simpl. rewrite list_elem_of_singleton.
      destruct (decide (k' = k)) as [->|]; intuition.
Qed.

(** X13.  [unifySchemas] keeps the invariant: when every input fragment
    satisfies it, has [properties] and [required] together or neither, and
    has no own "__proto__" property, so does the result. *)
Lemma unifySchemas_required_matches schemas :
  (∀ s, s ∈ schemas →
        required_matches_properties s ∧
        (is_Some (properties s) ↔ is_Some (required s)) ∧
        ∀ p, properties s = Some p → p !! "__proto__" = None) →
  required_matches_properties (unifySchemas schemas).
Proof.
  intros Hall. destruct schemas as [|first rest]; [done|].
  unfold unifySchemas. case_decide; [|done]. case_decide.
  2:{ destruct (Hall first) as (Hfirst & _); [by left|]. exact Hfirst. }
  rewrite foldl_merge_one. unfold required_matches_properties, objectOf.
  cbn [properties required]. split; [apply foldl_Set_add_NoDup, NoDup_nil_2|].
  intros key. rewrite foldl_Set_add_elem, elem_of_nil.
  pose proof (merged_properties_lookup (first :: rest) ∅ [] key) as Hmerged.
  rewrite foldl_merge_one in Hmerged. cbn [fst] in Hmerged.
  rewrite Hmerged by (intros s p Hs; by apply (Hall s)).
  rewrite lookup_empty.
  assert (is_Some (match last_write key (first :: rest) with
                   | Some v => Some v | None => None end)
          ↔ ∃ s p, s ∈ first :: rest ∧ properties s = Some p ∧ is_Some (p !! key))
    as ->.
  { destruct (last_write key (first :: rest)) as [v|] eqn:Hlast.
    - split; [intros _|by eauto].
      apply last_Some_elem_of, list_elem_of_omap in Hlast as (s & Hs & Hv).
      destruct (properties s) as [p|] eqn:Hp; [|done].
      exists s, p. by eauto.
    - split; [by intros [? ?]|]. intros (s & p & Hs & Hp & v & Hv).
      apply last_None in Hlast.
      assert (v ∈ omap (λ s, properties s ≫= (.!! key)) (first :: rest)) as Hin.
      { apply list_elem_of_omap. exists s. split; [done|]. by rewrite Hp. }
      rewrite Hlast in Hin. by apply elem_of_nil in Hin. }
  unfold required_keys. rewrite elem_of_concat. split.
  - intros [[]|(r & Hkey & (s & -> & Hs)%list_elem_of_fmap)].
    destruct (Hall s Hs) as (Hinv & Hboth & _).
    unfold required_matches_properties in Hinv.
    destruct (required s) as [r|] eqn:Hr; [|by apply elem_of_nil in Hkey].
    destruct (properties s) as [p|] eqn:Hp.
    + exists s, p. split_and!; [done..|]. by apply Hinv.
    + destruct (proj2 Hboth) as [? ?]; by eauto.
  - intros (s & p & Hs & Hp & Hkey). right.
    destruct (Hall s Hs) as (Hinv & Hboth & _).
    unfold required_matches_properties in Hinv. rewrite Hp in Hinv, Hboth.
    destruct (required s) as [r|] eqn:Hr.
    + exists r. split; [by apply Hinv|].
      apply list_elem_of_fmap. exists s. by rewrite Hr.
    + destruct (proj1 Hboth) as [? ?]; by eauto.
Qed.
End RequiredInvariant.

(** * The claims *)

Section Claims.
Context {platform : Platform}.

(** C8.  [inferSchema] on an empty array returns exactly
    [{type: "array", items: {}}], whatever the fuel and the store; and
    [unifySchemas] on an empty sequence of fragments returns the empty
    fragment [{}]. *)
Theorem empty_array_and_empty_unification fuel a st :
  heap st a = Array [] →
  inferSchema (S fuel) (VObject a) st = Some (arrayOf emptyFragment, st) ∧
  unifySchemas [] = emptyFragment.
Proof.
  intros Ha. split; [|done]. simpl. unfold bind, deref. by rewrite Ha.
Qed.


(** The same-type branch as the code runs it, for every input: when all
    fragments of a non-empty input carry the same [type] tag and that tag is
    not "object", the result is the copy of the first fragment after
    [delete baseSchema.type], so it has no [type] key.  An array holding [1]
    and [2] therefore gets the same schema as an empty array. *)
Theorem unifySchemas_same_type first rest t fuel a st :
  t ≠ "object" →
  (∀ s, s ∈ first :: rest → type s = Some t) →
  heap st a = Array [VNumber (Finite 1 0); VNumber (Finite 2 0)] →
  unifySchemas (first :: rest) = delete_type first ∧
  type (unifySchemas (first :: rest)) = None ∧
  format (unifySchemas (first :: rest)) = format first ∧
  items (unifySchemas (first :: rest)) = items first ∧
  inferSchema (S (S fuel)) (VObject a) st = Some (arrayOf emptyFragment, st).
Proof.
  intros Ht Hall Ha.
  assert (unifySchemas (first :: rest) = delete_type first) as ->.
  { unfold unifySchemas. rewrite fmap_cons, (Set_from_all_equal (type first)).
    - rewrite (Hall first) by left. simpl.
      rewrite decide_False; [done|]. congruence.
    - intros y (s & -> & Hs)%list_elem_of_fmap.
      rewrite (Hall first) by left. apply Hall. by right. }
  split_and!; [done..|].
  simpl. unfold bind, deref. by rewrite Ha.
Qed.

(** C2, on the failing input.  For the array [a] made by
    [a = []; a.push(a)] (location 6 of the sample store), no amount of
    fuel makes [inferSchema] return: the array branch never consults
    [visited], and every call makes the same call again. *)
Theorem inferSchema_self_referential_array_never_returns fuel :
  inferSchema fuel (VObject 6) sampleStore = None.
Proof.
  induction fuel as [|fuel IH]; [done|].
  simpl. unfold bind, deref. simpl. unfold bind. by rewrite IH.
Qed.

(** C3, on the failing input.  For the object parsed from the JSON text
    [{"__proto__": 1}] (location 10 of the sample store), [inferSchema]
    returns [{type: "object", properties: {}, required: ["__proto__"]}]:
    the key is pushed on [required], but the assignment to
    [schema.properties["__proto__"]] creates no property, so [required]
    lists a key that [properties] does not have. *)
Theorem inferSchema_proto_key_required_without_property fuel :
  inferSchema (S (S fuel)) (VObject 10) sampleStore =
    Some (objectOf ∅ ["__proto__"], sampleStore) ∧
  ¬ required_matches_properties (objectOf ∅ ["__proto__"]).
Proof.
  split.
  - simpl. unfold bind, deref, visited_has, visited_add, visited_delete, ret.
    reflexivity.
  - intros [_ Hkeys]. destruct (proj1 (Hkeys "__proto__")) as [g Hg].
    + by left.
    + by rewrite lookup_empty in Hg.
Qed.

(** C5.  For every string, [inferSchema] returns [{type: "string"}] with
    at most one [format]: that of the first rule that applies, in the
    order URL, then "@" and ".", then date, then date-time, and none when
    no rule applies.  With the host's URL parser and [Date.parse] behaving
    as [HostFacts] records, "2024-01-15" gets "date",
    "2024-01-15T10:00:00Z" gets "date-time", "user@example.com" gets
    "email", "https://example.com" gets "uri", and "hello" gets no
    format. *)
Theorem string_format_detection value fuel st :
  HostFacts →
  inferSchema (S fuel) (VString value) st =
    Some (mkFragment (Some "string") (first_match (format_rules value))
            None None None None, st) ∧
  inferSchema (S fuel) (VString "2024-01-15") st =
    Some (set_format (typed "string") "date", st) ∧
  inferSchema (S fuel) (VString "2024-01-15T10:00:00Z") st =
    Some (set_format (typed "string") "date-time", st) ∧
  inferSchema (S fuel) (VString "user@example.com") st =
    Some (set_format (typed "string") "email", st) ∧
  inferSchema (S fuel) (VString "https://example.com") st =
    Some (set_format (typed "string") "uri", st) ∧
  inferSchema (S fuel) (VString "hello") st = Some (typed "string", st).
Proof.
  intros [[u Hhttps] Hdate Hdt Hemail Hhello Hpd Hpdt].
  split; [simpl; by rewrite inferString_first_match|].
  simpl. unfold ret, inferString.
  rewrite Hhttps, Hdate, Hdt, Hemail, Hhello. simpl.
  change (match_date "2024-01-15") with true.
  change (match_date "2024-01-15T10:00:00Z") with false.
  change (match_date_time "2024-01-15T10:00:00Z") with true.
  change (match_date "hello") with false.
  change (match_date_time "hello") with false.
  rewrite Hpd, Hpdt. done.
Qed.

(** C9.  A call of [inferSchema] that returns leaves the store as it
    found it: the object graph is the same, and so is the visited set
    (every location added on the way in is removed on the way out). *)
Theorem inferSchema_leaves_input_intact fuel value st f st' :
  inferSchema fuel value st = Some (f, st') →
  heap st' = heap st ∧ visited st' = visited st.
Proof. intros Hrun. by rewrite (inferSchema_restores _ _ _ _ _ Hrun). Qed.

(** An object some of whose properties hold the object itself: the call
    returns once the other properties can be inferred, and each
    self-referential property gets [{type: "object"}]. *)
Lemma self_reference_degraded st a entries fuel :
  heap st a = Plain entries →
  a ∉ visited st →
  NoDup entries.*1 →
  (∀ k v, (k, v) ∈ entries → v ≠ VObject a →
     is_Some (inferSchema (S fuel) v (mkStore (heap st) ({[a]} ∪ visited st)))) →
  ∃ p, inferSchema (S (S fuel)) (VObject a) st =
         Some (objectOf p entries.*1, st) ∧
       ∀ k, k ≠ "__proto__" → (k, VObject a) ∈ entries →
            p !! k = Some (typed "object").
Proof.
  intros Ha Hvis Hnd Hothers.
  set (st1 := mkStore (heap st) ({[a]} ∪ visited st)) in *.
  assert (inferSchema (S fuel) (VObject a) st1 = Some (typed "object", st1))
    as Hself.
  { rewrite (inferSchema_object _ _ _ entries) by done.
    rewrite bool_decide_eq_true_2; [done|]. simpl. set_solver. }
  destruct (forM_returns (add_entry (inferSchema (S fuel)))
              (λ done schema,
                 ∃ p, schema = objectOf p done.*1 ∧
                      ∀ k, k ≠ "__proto__" → (k, VObject a) ∈ done →
                           p !! k = Some (typed "object"))
              entries (objectOf ∅ []) st1) as (r & Hr & p & -> & Hp).
  - exists ∅. split; [done|]. intros k _ Hin. by apply elem_of_nil in Hin.
  - intros done [k' v'] rest acc Hl (p & -> & Hp).
    assert (∃ g, inferSchema (S fuel) v' st1 = Some (g, st1) ∧
                 (v' = VObject a → g = typed "object")) as (g & Hg & Hgself).
    { destruct (decide (v' = VObject a)) as [->|Hne].
      - by exists (typed "object").
      - destruct (Hothers k' v') as [[g st2] Hg]; [|done|].
        { rewrite Hl. apply elem_of_app. right. by left. }
        pose proof (inferSchema_restores _ _ _ _ _ Hg) as ->. by exists g. }
    exists (push_required (set_property (objectOf p done.*1) k' g) k').
    split; [unfold add_entry, bind; by rewrite Hg|].
    exists (Object_set p k' g). split.
    { unfold push_required, set_property, objectOf. simpl.
      by rewrite fmap_app. }
    intros k Hk [Hin | Hin]%elem_of_app.
    + rewrite Object_set_lookup, decide_False; [by apply Hp|].
      intros [-> _]. rewrite Hl, fmap_app, fmap_cons in Hnd.
      apply NoDup_app in Hnd as (_ & Hdisj & _). apply (Hdisj k); [|by left].
      apply list_elem_of_fmap. by exists (k, VObject a).
    + apply list_elem_of_singleton in Hin. injection Hin as -> <-.
      rewrite Object_set_lookup, decide_True by done. by rewrite Hgself.
  - exists p. split; [|done].
    rewrite (inferSchema_object _ _ _ entries) by done.
    rewrite bool_decide_eq_false_2 by done. fold st1. rewrite Hr.
    do 2 f_equal. destruct st as [h vis]. simpl in *. f_equal. set_solver.
Qed.

(** Two properties of one object holding the same object [s]: both get the
    fragment inferred for [s], which has [properties] and [required]. *)
Lemma shared_siblings_independent st o s k1 k2 es fuel f st' :
  heap st o = Plain [(k1, VObject s); (k2, VObject s)] →
  o ∉ visited st →
  k1 ≠ k2 → k1 ≠ "__proto__" → k2 ≠ "__proto__" →
  heap st s = Plain es → s ≠ o → s ∉ visited st →
  inferSchema fuel (VObject s) (mkStore (heap st) ({[o]} ∪ visited st))
    = Some (f, st') →
  inferSchema (S fuel) (VObject o) st =
    Some (objectOf (<[k2 := f]> (<[k1 := f]> ∅)) [k1; k2], st) ∧
  is_Some (properties f) ∧ required f = Some es.*1.
Proof.
  intros Ho Hvis Hk Hk1 Hk2 Hs Hso Hsvis Hrun.
  pose proof (inferSchema_restores _ _ _ _ _ Hrun) as ->. split.
  - rewrite (inferSchema_object _ _ _ _ Ho).
    rewrite bool_decide_eq_false_2 by done.
    simpl. unfold bind. rewrite Hrun. simpl. rewrite Hrun. simpl.
    unfold objectOf, push_required, set_property, Object_set. simpl.
    rewrite !decide_False by done.
    do 2 f_equal. destruct st as [h vis]. simpl in *. f_equal. set_solver.
  - destruct fuel as [|fuel]; [done|].
    rewrite (inferSchema_object _ _ _ es) in Hrun by done.
    rewrite bool_decide_eq_false_2 in Hrun by (simpl; set_solver).
    destruct (forM _ _ _ _) as [[schema st1]|] eqn:Hloop; [|done].
    injection Hrun as <- _.
    apply (forM_invariant _
             (λ done schema _,
                is_Some (properties schema) ∧ required schema = Some done.*1))
      in Hloop; [done|by split; eauto|].
    intros done [key val] rest acc s0 acc' s0' _ [[p Hp] Hr] Hbody.
    apply add_entry_Some in Hbody as (g & _ & ->). simpl.
    rewrite Hp, Hr. simpl. split; [by eauto|]. by rewrite fmap_app.
Qed.

(** C4.  An object with properties that hold the object itself: the call
    returns (given that its other properties can be inferred) the full
    fragment [{type: "object", properties, required}] of the object, all
    its keys required, and each self-referential property is
    [{type: "object"}].  And since the object is taken off the visited set
    on exit, two sibling properties holding one and the same object [s]
    both get the full fragment of [s]. *)
Theorem self_reference_and_shared_siblings
    st a entries fuel st2 o s k1 k2 es fuel2 f st2' :
  heap st a = Plain entries →
  a ∉ visited st →
  NoDup entries.*1 →
  (∀ k v, (k, v) ∈ entries → v ≠ VObject a →
     is_Some (inferSchema (S fuel) v (mkStore (heap st) ({[a]} ∪ visited st)))) →
  heap st2 o = Plain [(k1, VObject s); (k2, VObject s)] →
  o ∉ visited st2 →
  k1 ≠ k2 → k1 ≠ "__proto__" → k2 ≠ "__proto__" →
  heap st2 s = Plain es → s ≠ o → s ∉ visited st2 →
  inferSchema fuel2 (VObject s) (mkStore (heap st2) ({[o]} ∪ visited st2))
    = Some (f, st2') →
  (∃ p, inferSchema (S (S fuel)) (VObject a) st =
          Some (objectOf p entries.*1, st) ∧
        ∀ k, k ≠ "__proto__" → (k, VObject a) ∈ entries →
             p !! k = Some (typed "object")) ∧
  inferSchema (S fuel2) (VObject o) st2 =
    Some (objectOf (<[k2 := f]> (<[k1 := f]> ∅)) [k1; k2], st2) ∧
  is_Some (properties f) ∧ required f = Some es.*1.
Proof.
  intros. split.
  - by apply self_reference_degraded.
  - by eapply shared_siblings_independent.
Qed.

End Claims.

(** * The statements at the sample data *)

(** The sample host behaves on the strings of the examples as [HostFacts]
    records. *)
Lemma sampleHost_facts : @HostFacts sampleHost.
Proof. split; try reflexivity. by eexists. Defined.

Lemma empty_array_and_empty_unification_witness :
  inferSchema (platform := sampleHost) 1 (VObject 2) sampleStore =
    Some (arrayOf emptyFragment, sampleStore) ∧
  unifySchemas [] = emptyFragment.
Proof.
  exact (empty_array_and_empty_unification (platform := sampleHost)
           0 2 sampleStore eq_refl).
Defined.


(** C1, on the failing input.  Two fragments [{type: "integer"}] carry the
    same tag, which is not "object", and yet unify to [{}], not to the first
    fragment [{type: "integer"}]: the copy of the first fragment loses its
    [type] key before it is returned.  So the array holding [1] and [2]
    (location 0 of the sample store) does not get
    [items: {type: "integer"}]. *)
Lemma unifySchemas_same_type_not_first :
  type <$> [typed "integer"; typed "integer"] = [Some "integer"; Some "integer"] ∧
  "integer" ≠ "object" ∧
  unifySchemas [typed "integer"; typed "integer"] = emptyFragment ∧
  unifySchemas [typed "integer"; typed "integer"] ≠ typed "integer" ∧
  inferSchema (platform := sampleHost) 2 (VObject 0) sampleStore ≠
    Some (arrayOf (typed "integer"), sampleStore).
Proof. split_and!; done. Qed.

Lemma unifySchemas_same_type_witness :
  unifySchemas [typed "integer"; typed "integer"] = delete_type (typed "integer") ∧
  type (unifySchemas [typed "integer"; typed "integer"]) = None ∧
  format (unifySchemas [typed "integer"; typed "integer"]) = None ∧
  items (unifySchemas [typed "integer"; typed "integer"]) = None ∧
  inferSchema (platform := sampleHost) 2 (VObject 0) sampleStore =
    Some (arrayOf emptyFragment, sampleStore).
Proof.
  apply (unifySchemas_same_type (platform := sampleHost)
           (typed "integer") [typed "integer"] "integer" 0 0 sampleStore).
  - discriminate.
  - intros s Hs. apply elem_of_cons in Hs as [->|Hs]; [reflexivity|].
    apply list_elem_of_singleton in Hs as ->. reflexivity.
  - reflexivity.
Defined.

Lemma string_format_detection_witness :
  inferSchema (platform := sampleHost) 1 (VString "mailto:user@example.com")
      sampleStore =
    Some (set_format (typed "string") "uri", sampleStore) ∧
  inferSchema (platform := sampleHost) 1 (VString "2024-01-15") sampleStore =
    Some (set_format (typed "string") "date", sampleStore) ∧
  inferSchema (platform := sampleHost) 1 (VString "2024-01-15T10:00:00Z")
      sampleStore =
    Some (set_format (typed "string") "date-time", sampleStore) ∧
  inferSchema (platform := sampleHost) 1 (VString "user@example.com")
      sampleStore =
    Some (set_format (typed "string") "email", sampleStore) ∧
  inferSchema (platform := sampleHost) 1 (VString "https://example.com")
      sampleStore =
    Some (set_format (typed "string") "uri", sampleStore) ∧
  inferSchema (platform := sampleHost) 1 (VString "hello") sampleStore =
    Some (typed "string", sampleStore).
Proof.
  exact (string_format_detection (platform := sampleHost)
           "mailto:user@example.com" 0 sampleStore sampleHost_facts).
Defined.

Lemma inferSchema_leaves_input_intact_witness :
  inferSchema (platform := sampleHost) 2 (VObject 7) sampleStore =
    Some (objectOf (<["self" := typed "object"]> (<["n" := typed "integer"]> ∅))
            ["n"; "self"],
          mkStore sampleHeap (({[7]} ∪ ∅) ∖ {[7]})) ∧
  heap (mkStore sampleHeap (({[7]} ∪ ∅) ∖ {[7]})) = heap sampleStore ∧
  visited (mkStore sampleHeap (({[7]} ∪ ∅) ∖ {[7]})) = visited sampleStore.
Proof.
  split; [reflexivity|].
  apply (inferSchema_leaves_input_intact (platform := sampleHost)
           2 (VObject 7) sampleStore
           (objectOf (<["self" := typed "object"]> (<["n" := typed "integer"]> ∅))
              ["n"; "self"])).
  reflexivity.
Defined.

Lemma inferSchema_top_level_typed_witness :
  inferSchema (platform := sampleHost) 2 (VObject 1) sampleStore =
    Some (arrayOf (anyOfFragment [typed "integer"; typed "string"]), sampleStore) ∧
  is_Some (type (arrayOf (anyOfFragment [typed "integer"; typed "string"]))) ∧
  anyOf (arrayOf (anyOfFragment [typed "integer"; typed "string"])) = None ∧
  anyOf_confined (arrayOf (anyOfFragment [typed "integer"; typed "string"])) = true.
Proof.
  split; [reflexivity|].
  apply (inferSchema_top_level_typed (platform := sampleHost)
           2 (VObject 1) sampleStore _ sampleStore).
  reflexivity.
Defined.

Lemma self_reference_and_shared_siblings_witness :
  (∃ p, inferSchema (platform := sampleHost) 2 (VObject 7) sampleStore =
          Some (objectOf p ["n"; "self"], sampleStore) ∧
        ∀ k, k ≠ "__proto__" → (k, VObject 7) ∈ [("n", one); ("self", VObject 7)] →
             p !! k = Some (typed "object")) ∧
  inferSchema (platform := sampleHost) 3 (VObject 8) sampleStore =
    Some (objectOf (<["right" := objectOf (<["n" := typed "integer"]> ∅) ["n"]]>
                      (<["left" := objectOf (<["n" := typed "integer"]> ∅) ["n"]]> ∅))
            ["left"; "right"], sampleStore) ∧
  is_Some (properties (objectOf (<["n" := typed "integer"]> ∅) ["n"])) ∧
  required (objectOf (<["n" := typed "integer"]> ∅) ["n"]) = Some ["n"].
Proof.
  apply (self_reference_and_shared_siblings (platform := sampleHost)
           sampleStore 7 [("n", one); ("self", VObject 7)] 0
           sampleStore 8 9 "left" "right" [("n", one)] 2
           (objectOf (<["n" := typed "integer"]> ∅) ["n"])
           (mkStore sampleHeap ({[8]} ∪ ∅))).
  - reflexivity.
  - apply not_elem_of_empty.
  - apply NoDup_cons. split; [|apply NoDup_singleton].
    intros Hin%list_elem_of_singleton. discriminate.
  - intros k v Hin Hv. apply elem_of_cons in Hin as [Hin|Hin].
    + injection Hin as -> ->. by eexists.
    + apply list_elem_of_singleton in Hin. injection Hin as -> ->.
      by destruct Hv.
  - reflexivity.
  - apply not_elem_of_empty.
  - discriminate.
  - discriminate.
  - discriminate.
  - reflexivity.
  - discriminate.
  - apply not_elem_of_empty.
  - reflexivity.
Defined.


(** * Further properties *)

(** ** Documents *)

Lemma JSON_nested_ind (P : JSON → Prop) :
  P JNull →
  (∀ b, P (JBoolean b)) →
  (∀ x, P (JNumber x)) →
  (∀ s, P (JString s)) →
  (∀ js, Forall P js → P (JArray js)) →
  (∀ ms, Forall (λ m, P m.2) ms → P (JObject ms)) →
  ∀ j, P j.
Proof.
  intros Hnull Hbool Hnum Hstr Harr Hobj. fix IH 1.
  intros [|b|x|s|js|ms]; [done..| |].
  - apply Harr. induction js as [|j js IHjs]; constructor; [apply IH|done].
  - apply Hobj. induction ms as [|m ms IHms]; constructor; [apply IH|done].
Qed.

Lemma depth_array_element j js : j ∈ js → (depth j < depth (JArray js))%nat.
Proof.
  simpl. induction js as [|j' js IH]; intros Hj.
  - by apply elem_of_nil in Hj.
  - apply elem_of_cons in Hj as [->|Hj]; simpl; [lia|]. specialize (IH Hj). lia.
Qed.

Lemma depth_object_member (m : string * JSON) ms :
  m ∈ ms → (depth m.2 < depth (JObject ms))%nat.
Proof.
  simpl. induction ms as [|m' ms IH]; intros Hm.
  - by apply elem_of_nil in Hm.
  - apply elem_of_cons in Hm as [->|Hm]; simpl; [lia|]. specialize (IH Hm). lia.
Qed.

Lemma Forall2_functional {A B} (R : A → B → Prop) l k1 k2 :
  Forall (λ y, ∀ x y', R x y → R x y' → y = y') k1 →
  Forall2 R l k1 → Forall2 R l k2 → k1 = k2.
Proof.
  intros Hfun H1. revert k2 Hfun.
  induction H1 as [|x y l k1 Hx _ IH]; intros k2 Hfun H2;
    inversion H2 as [|? y' ? k2' Hx' H2']; subst; [done|].
  apply Forall_cons in Hfun as [Hy Hk1]. f_equal; [by eapply Hy|by apply IH].
Qed.

(** A value is at most one document. *)
Lemma represents_functional h v j1 j2 :
  represents h v j1 → represents h v j2 → j1 = j2.
Proof.
  revert v j2. induction j1 as [|b|x|s|js IH|ms IH] using JSON_nested_ind;
    intros v j2 H1 H2; inversion H1 as [| | | |a vs ? Ha Hvs|a es ? Ha Hes];
    subst; inversion H2 as [| | | |a' vs' js' Ha' Hvs'|a' es' ms' Ha' Hes'];
    subst; try done; try congruence.
  - f_equal. assert (vs' = vs) as -> by congruence.
    apply (Forall2_functional (represents h) vs); [|done..].
    eapply Forall_impl; [exact IH|]. intros j Hj x j'. apply Hj.
  - f_equal. assert (es' = es) as -> by congruence.
    apply (Forall2_functional
             (λ e m, e.1 = m.1 ∧ represents h e.2 m.2) es); [|done..].
    eapply Forall_impl; [exact IH|].
    intros [k j] Hj e [k' j'] [Hk Hv] [Hk' Hv']. simpl in *.
    f_equal; [congruence|by eapply Hj].
Qed.

Lemma mapM_Forall2 {A B} (f : A → M B) l ys st :
  Forall2 (λ x y, f x st = Some (y, st)) l ys → mapM f l st = Some (ys, st).
Proof.
  induction 1 as [|x y l ys Hx _ IH]; [done|].
  simpl. unfold bind. by rewrite Hx, IH.
Qed.

Lemma forM_Forall2 {A B S} (body : S → A → M S) (step : S → B → S) l ms st :
  Forall2 (λ x m, ∀ acc, body acc x st = Some (step acc m, st)) l ms →
  ∀ acc, forM body acc l st = Some (foldl step acc ms, st).
Proof.
  induction 1 as [|x m l ms Hx _ IH]; intros acc; [done|].
  simpl. unfold bind. by rewrite Hx, IH.
Qed.

Section DocumentInference.
Context {platform : Platform}.

(** On a document, with every visited location holding a deeper document,
    fuel above the depth is enough, the guard never fires, and the result is
    the one of the plain recursion. *)
Lemma inferSchema_represents j :
  ∀ v st (fuel : nat),
    represents (heap st) v j →
    (∀ a j', a ∈ visited st → represents (heap st) (VObject a) j' →
             (depth j < depth j')%nat) →
    (depth j < fuel)%nat →
    inferSchema fuel v st = Some (inferJSON j, st).
Proof.
  induction j as [|b|x|s|js IH|ms IH] using JSON_nested_ind;
    intros v st fuel Hrep Hvis Hfuel;
    inversion Hrep as [| | | |a vs ? Ha Hvs|a es ? Ha Hes]; subst;
    (destruct fuel as [|fuel]; [lia|]); try done.
  - rewrite (inferSchema_array _ _ _ vs) by done.
    destruct Hvs as [|v0 j0 vs js Hv0 Hvs]; [done|].
    rewrite decide_False by done.
    rewrite (mapM_Forall2 _ _ (inferJSON <$> j0 :: js)); [done|].
    apply Forall2_fmap_r.
    assert (Forall2 (represents (heap st)) (v0 :: vs) (j0 :: js)) as Hall
      by by constructor.
    clear Hv0 Hvs Ha Hrep.
    induction Hall as [|v1 j1 vs1 js1 Hv1 _ IHall]; constructor.
    + apply Forall_cons in IH as [IHj _]. apply IHj; [done| |].
      * intros a' j' Ha' Hj'. specialize (Hvis a' j' Ha' Hj').
        pose proof (depth_array_element j1 (j1 :: js1) ltac:(left)). lia.
      * pose proof (depth_array_element j1 (j1 :: js1) ltac:(left)). lia.
    + apply Forall_cons in IH as [_ IHjs]. apply IHall; [done| |].
      * intros a' j' Ha' Hj'. specialize (Hvis a' j' Ha' Hj'). simpl in *. lia.
      * simpl in *. lia.
  - rewrite (inferSchema_object _ _ _ es) by done.
    rewrite bool_decide_eq_false_2.
    2:{ intros Hin. specialize (Hvis a _ Hin Hrep). lia. }
    set (st1 := mkStore (heap st) ({[a]} ∪ visited st)).
    rewrite (forM_Forall2 _
               (λ schema m,
                  push_required (set_property schema m.1 (inferJSON m.2)) m.1)
               _ ms).
    { assert (a ∉ visited st) as Hnew.
      { intros Hin. specialize (Hvis a _ Hin Hrep). lia. }
      simpl. do 2 f_equal. destruct st as [h vis]. simpl in *. f_equal.
      set_solver. }
    assert (∀ m, m ∈ ms → (depth m.2 < fuel)%nat) as Hdepth.
    { intros m Hm. pose proof (depth_object_member m ms Hm). lia. }
    assert (∀ m a' j', m ∈ ms → a' ∈ visited st1 →
              represents (heap st) (VObject a') j' → (depth m.2 < depth j')%nat)
      as Hvis1.
    { intros m a' j' Hm Ha' Hj'. pose proof (depth_object_member m ms Hm).
      apply elem_of_union in Ha' as [->%elem_of_singleton|Ha'].
      - by rewrite (represents_functional _ _ _ _ Hj' Hrep).
      - specialize (Hvis a' j' Ha' Hj'). lia. }
    clear Ha Hrep Hfuel Hvis.
    induction Hes as [|[k v] [k' j] es ms [Hk Hv] _ IHes]; constructor.
    + intros acc. simpl in *. subst k'. unfold add_entry, bind.
      apply Forall_cons in IH as [IHj _].
      rewrite (IHj v st1 fuel); [done|done| |].
      * intros a' j' Ha' Hj'. by apply (Hvis1 (k, j) a' j'); [left|..].
      * apply (Hdepth (k, j)). by left.
    + apply Forall_cons in IH as [_ IHms]. apply IHes; [done| |].
      * intros m Hm. apply Hdepth. by right.
      * intros m a' j' Hm. apply Hvis1. by right.
Qed.

(** X1.  A value that is a JSON document (what [JSON.parse] returns), given
    to [inferSchema] with an empty visited set: the call returns as soon as
    the fuel exceeds the depth of the document, leaves the store as it was,
    and its result is the one of the plain recursion on the document: no
    object of a document is ever cut down to [{type: "object"}] by the
    cycle guard, also when two positions share one object. *)
Theorem inferSchema_on_documents v st j (n : nat) :
  represents (heap st) v j →
  visited st = ∅ →
  inferSchema (S (depth j) + n) v st = Some (inferJSON j, st).
Proof.
  intros Hrep Hempty. apply inferSchema_represents; [done| |lia].
  intros a j'. rewrite Hempty. by intros ?%not_elem_of_empty.
Qed.
End DocumentInference.

(** ** Which graphs [inferSchema] returns on *)

Section Returns.
Context {platform : Platform}.

(** Finitely many calls that each return, return with one common fuel. *)
Lemma uniform_fuel (vs : list Value) st :
  (∀ v, v ∈ vs → ∃ (fuel : nat) f, inferSchema fuel v st = Some (f, st)) →
  ∃ fuel : nat, ∀ v, v ∈ vs → ∃ f, inferSchema fuel v st = Some (f, st).
Proof.
  induction vs as [|v0 vs IH]; intros Hall.
  - exists 0. by intros v ?%elem_of_nil.
  - destruct (Hall v0) as (fuel0 & f0 & H0); [by left|].
    destruct IH as [fuel1 H1]; [intros v Hv; apply Hall; by right|].
    exists (fuel0 `max` fuel1). intros v [->|Hv]%elem_of_cons.
    + exists f0. apply (inferSchema_fuel_mono fuel0); [lia|done].
    + destruct (H1 v Hv) as [f Hf]. exists f.
      apply (inferSchema_fuel_mono fuel1); [lia|done].
Qed.

Lemma mapM_returns {A B} (f : A → M B) l st :
  (∀ x, x ∈ l → ∃ y, f x st = Some (y, st)) →
  ∃ ys, mapM f l st = Some (ys, st).
Proof.
  induction l as [|x l IH]; intros Hall; [by exists []|].
  destruct (Hall x) as [y Hy]; [by left|].
  destruct IH as [ys Hys]; [intros x' Hx'; apply Hall; by right|].
  exists (y :: ys). simpl. unfold bind. by rewrite Hy, Hys.
Qed.

(** X2.  Let [D] be a finite set of locations that holds the value's own
    location and every location held by an object of [D], and let no array
    of [D] be reachable from itself through arrays only ([rank] decreases
    from an array to the arrays among its elements).  Then [inferSchema]
    returns, with enough fuel, and leaves the store as it was: a cycle is
    cut at the first object (not array) it meets twice. *)
Theorem inferSchema_returns_without_array_cycles
    (D : gset loc) (rank : loc → nat) st v :
  (∀ a, v = VObject a → a ∈ D) →
  (∀ a b, a ∈ D → VObject b ∈ held (heap st a) → b ∈ D) →
  (∀ a b vs vs', a ∈ D → heap st a = Array vs → VObject b ∈ vs →
                 heap st b = Array vs' → (rank b < rank a)%nat) →
  ∃ (fuel : nat) f, inferSchema fuel v st = Some (f, st).
Proof.
  intros Hroot Hclosed Hrank.
  remember (heap st) as h eqn:Hh.
  remember (size (D ∖ visited st)) as n eqn:Hn.
  revert st v Hh Hn Hroot.
  induction n as [n IHn] using lt_wf_ind. intros st v -> -> Hroot.
  (* objects that are not arrays *)
  assert (∀ a es, a ∈ D → heap st a = Plain es →
            ∃ (fuel : nat) f, inferSchema fuel (VObject a) st = Some (f, st))
    as Hplain.
  { intros a es Ha Hes. destruct (decide (a ∈ visited st)) as [Hseen|Hnew].
    { exists 1, (typed "object").
      rewrite (inferSchema_object _ _ _ es) by done.
      by rewrite bool_decide_eq_true_2. }
    set (st1 := mkStore (heap st) ({[a]} ∪ visited st)).
    destruct (uniform_fuel es.*2 st1) as [fuel Hfuel].
    { intros v' Hv'.
      apply (IHn (size (D ∖ visited st1))); [|done..|].
      - apply subset_size. simpl. set_solver.
      - intros b ->. apply (Hclosed a); [done|]. by rewrite Hes. }
    destruct (forM_returns (add_entry (inferSchema fuel)) (λ _ _, True)
                es (objectOf ∅ []) st1) as (r & Hr & _); [done| |].
    { intros done [k v'] rest acc Hl _.
      destruct (Hfuel v') as [g Hg].
      { rewrite Hl, fmap_app, fmap_cons. apply elem_of_app. right. by left. }
      eexists. split; [|done]. unfold add_entry, bind. by rewrite Hg. }
    exists (S fuel), r. rewrite (inferSchema_object _ _ _ es) by done.
    rewrite bool_decide_eq_false_2 by done. fold st1. rewrite Hr.
    do 2 f_equal. destruct st as [h vis]. simpl in *. f_equal. set_solver. }
  (* arrays, by their rank *)
  assert (∀ (r : nat) v,
            (∀ a, v = VObject a → a ∈ D) →
            (∀ a vs, v = VObject a → heap st a = Array vs → (rank a < r)%nat) →
            ∃ (fuel : nat) f, inferSchema fuel v st = Some (f, st)) as Hvalues.
  { induction r as [|r IHr]; intros v' Hv' Hr;
      (destruct v' as [| | | |a|]; try (by exists 1; eexists));
      specialize (Hv' a eq_refl);
      (destruct (heap st a) as [vs|es] eqn:Ha; [|by eapply Hplain]).
    { specialize (Hr a vs eq_refl Ha). lia. }
    specialize (Hr a vs eq_refl Ha).
    destruct (uniform_fuel vs st) as [fuel Hfuel].
    { intros x Hx. apply IHr.
      - intros b ->. apply (Hclosed a); [done|]. by rewrite Ha.
      - intros b vs' -> Hb.
        specialize (Hrank a b vs vs' Hv' Ha Hx Hb). lia. }
    destruct (mapM_returns (inferSchema fuel) vs st Hfuel) as [ys Hys].
    exists (S fuel). rewrite (inferSchema_array _ _ _ vs) by done.
    case_decide; [by eexists|]. rewrite Hys. by eexists. }
  apply (Hvalues (S (match v with VObject a => rank a | _ => 0 end))); [done|].
  intros a vs -> _. lia.
Qed.
End Returns.

(** ** The kinds of fragments *)

Section Kinds.
Context {platform : Platform}.

Lemma first_match_format_rules value x :
  first_match (format_rules value) = Some x →
  x ∈ ["uri"; "email"; "date"; "date-time"].
Proof.
  unfold first_match, format_rules. rewrite !filter_cons, filter_nil. simpl.
  repeat case_decide; simpl; intros [= <-]; repeat first [by left | right].
Qed.

(** X3.  What [inferSchema] returns is of one of seven types; it has a
    [format] only when it is a string, one of the four formats; it has
    [items] exactly when it is an array; it has [properties] and [required]
    together or neither, and only when it is an object. *)
Theorem inferSchema_result_kinds fuel value st f st' :
  inferSchema fuel value st = Some (f, st') →
  type f ∈ Some <$> ["null"; "array"; "object"; "string"; "integer";
                     "number"; "boolean"] ∧
  (∀ x, format f = Some x →
        type f = Some "string" ∧ x ∈ ["uri"; "email"; "date"; "date-time"]) ∧
  (is_Some (items f) ↔ type f = Some "array") ∧
  (is_Some (properties f) ↔ is_Some (required f)) ∧
  (is_Some (properties f) → type f = Some "object").
Proof.
  intros Hrun. destruct fuel as [|fuel]; [done|].
  assert (∀ t, t ∈ ["null"; "array"; "object"; "string"; "integer";
                    "number"; "boolean"] →
            (t = "array" → False) →
            let f := typed t in
            type f ∈ Some <$> ["null"; "array"; "object"; "string"; "integer";
                               "number"; "boolean"] ∧
            (∀ x, format f = Some x →
               type f = Some "string" ∧ x ∈ ["uri"; "email"; "date"; "date-time"]) ∧
            (is_Some (items f) ↔ type f = Some "array") ∧
            (is_Some (properties f) ↔ is_Some (required f)) ∧
            (is_Some (properties f) → type f = Some "object")) as Hscalar.
  { intros t Ht Harr. simpl. split_and!.
    - by apply (list_elem_of_fmap_2 Some) in Ht.
    - done.
    - split; [by intros [? ?]|]. intros [= ->]. by destruct Harr.
    - split; by intros [? ?].
    - by intros [? ?]. }
  destruct value as [|b|x|s|a|].
  - injection Hrun as <- <-. apply Hscalar; [repeat first [by left|right]|done].
  - injection Hrun as <- <-. apply Hscalar; [repeat first [by left|right]|done].
  - injection Hrun as <- <-.
    destruct (Number_isInteger x);
      (apply Hscalar; [repeat first [by left|right]|done]).
  - injection Hrun as <- <-. rewrite inferString_first_match. simpl. split_and!.
    + repeat first [by left|right].
    + intros x Hx. split; [done|]. by eapply first_match_format_rules.
    + split; [by intros [? ?]|done].
    + split; by intros [? ?].
    + by intros [? ?].
  - destruct (heap st a) as [vs|es] eqn:Ha.
    + rewrite (inferSchema_array _ _ _ vs) in Hrun by done.
      assert (∃ i, f = arrayOf i) as [i ->].
      { case_decide; [injection Hrun as <- _; by eexists|].
        destruct (mapM _ _ _) as [[ys st1]|]; [|done].
        injection Hrun as <- _. by eexists. }
      simpl. split_and!; [repeat first [by left|right]|done|by eauto| |].
      * split; by intros [? ?].
      * by intros [? ?].
    + rewrite (inferSchema_object _ _ _ es) in Hrun by done.
      case_bool_decide.
      { injection Hrun as <- _.
        apply Hscalar; [repeat first [by left|right]|done]. }
      destruct (forM _ _ _ _) as [[schema st1]|] eqn:Hloop; [|done].
      injection Hrun as <- _.
      apply (forM_invariant _
               (λ _ schema _,
                  type schema = Some "object" ∧ format schema = None ∧
                  items schema = None ∧ is_Some (properties schema) ∧
                  is_Some (required schema))) in Hloop.
      * destruct Hloop as (Ht & Hf & Hi & Hp & Hr). rewrite Ht, Hf, Hi.
        split_and!; [repeat first [by left|right]|done| |done|done].
        split; [by intros [? ?]|done].
      * split_and!; by eauto.
      * intros done [k v] rest acc s0 acc' s0' _ (Ht & Hf & Hi & [p Hp] & [r Hr])
          Hbody.
        apply add_entry_Some in Hbody as (g & _ & ->). simpl.
        rewrite Hp, Hr. split_and!; by eauto.
  - injection Hrun as <- <-. apply Hscalar; [repeat first [by left|right]|done].
Qed.
End Kinds.

(** X4.  For fragments without an [anyOf] key of their own (as [inferSchema]
    returns them), the result of [unifySchemas] has an [anyOf] key exactly
    when two of the fragments differ in their [type]; fragments of one type
    never give a disjunction. *)
Theorem unifySchemas_anyOf_iff schemas :
  (∀ s, s ∈ schemas → anyOf s = None) →
  (is_Some (anyOf (unifySchemas schemas)) ↔
   ∃ s1 s2, s1 ∈ schemas ∧ s2 ∈ schemas ∧ type s1 ≠ type s2).
Proof.
  intros Hnone. destruct schemas as [|first rest].
  { split; [by intros [? ?]|]. by intros (? & ? & ?%elem_of_nil & _). }
  unfold unifySchemas. case_decide as Hlen.
  - split.
    + case_decide.
      * destruct (foldl merge_one _ _). by intros [? ?].
      * simpl. rewrite (Hnone first) by left. by intros [? ?].
    + intros (s1 & s2 & Hs1 & Hs2 & Hne). exfalso.
      apply (Set_from_two (type <$> first :: rest) (type s1) (type s2));
        [by apply list_elem_of_fmap_2..|done|done].
  - split; [intros _|by eauto].
    destruct (decide (Forall (λ s, type s = type first) rest)) as [Hall|Hex].
    + exfalso. apply Hlen. rewrite fmap_cons, (Set_from_all_equal (type first)).
      * done.
      * intros y (s & -> & Hs)%list_elem_of_fmap.
        by apply (proj1 (Forall_forall _ _) Hall).
    + apply not_Forall_Exists, Exists_exists in Hex as (s & Hs & Hne); [|apply _].
      exists s, first. split_and!; [by right|by left|done].
Qed.

(** ** Documents of the same shape *)

Section SameShape.
Context {platform : Platform}.

Lemma alike_inferJSON j1 j2 : alike j1 j2 → inferJSON j1 = inferJSON j2.
Proof.
  revert j2. induction j1 as [|b|x|s|js IH|ms IH] using JSON_nested_ind;
    intros j2 Halike;
    inversion Halike as [| |? ? Hint|? ? Hfmt|? js2 Hall|? ms2 Hall]; subst;
    try done.
  - simpl. by rewrite Hint.
  - simpl. by rewrite !inferString_first_match, Hfmt.
  - assert (map inferJSON js = map inferJSON js2) as Hmap.
    { clear Halike. induction Hall as [|j j' js js2 Hj _ IHall]; [done|].
      apply Forall_cons in IH as [IHj IHjs]. simpl.
      f_equal; [by apply IHj|by apply IHall]. }
    destruct Hall as [|j j' js js2]; [done|].
    change (arrayOf (unifySchemas (map inferJSON (j :: js))) =
            arrayOf (unifySchemas (map inferJSON (j' :: js2)))).
    by rewrite Hmap.
  - simpl. generalize (objectOf ∅ []). clear Halike.
    induction Hall as [|[k j] [k' j'] ms ms2 [Hk Hj] _ IHall]; intros acc;
      [done|].
    apply Forall_cons in IH as [IHj IHms]. simpl in *. subst k'.
    rewrite (IHj j' Hj). by apply IHall.
Qed.

(** X5.  The schema of a document depends on its shape only: two documents
    with the same nesting and keys, whose numbers agree on being integers
    and whose strings get the same format, are inferred as the same
    fragment, whatever their values and wherever they sit in the store. *)
Theorem alike_documents_same_schema
    v1 v2 st1 st2 j1 j2 (fuel1 fuel2 : nat) f1 f2 st1' st2' :
  represents (heap st1) v1 j1 →
  represents (heap st2) v2 j2 →
  visited st1 = ∅ →
  visited st2 = ∅ →
  alike j1 j2 →
  inferSchema fuel1 v1 st1 = Some (f1, st1') →
  inferSchema fuel2 v2 st2 = Some (f2, st2') →
  f1 = f2.
Proof.
  intros Hrep1 Hrep2 Hvis1 Hvis2 Halike Hrun1 Hrun2.
  assert (∀ v st j (fuel : nat) f st',
            represents (heap st) v j → visited st = ∅ →
            inferSchema fuel v st = Some (f, st') → f = inferJSON j) as Hdoc.
  { intros v st j fuel f st' Hrep Hvis Hrun.
    apply (inferSchema_fuel_mono fuel (fuel `max` S (depth j))) in Hrun; [|lia].
    rewrite (inferSchema_represents j) in Hrun; [congruence|done| |lia].
    intros a j'. rewrite Hvis. by intros ?%not_elem_of_empty. }
  rewrite (Hdoc _ _ _ _ _ _ Hrep1 Hvis1 Hrun1),
          (Hdoc _ _ _ _ _ _ Hrep2 Hvis2 Hrun2).
  by apply alike_inferJSON.
Qed.
End SameShape.

(** ** Storing the schema in site-assets.json *)

Lemma replace_backslashes_idemp s :
  replace_backslashes (replace_backslashes s) = replace_backslashes s.
Proof.
  induction s as [|c s IH]; [done|]. simpl. rewrite IH. f_equal.
  by destruct (Ascii.eqb c "\") eqn:Hc; [|rewrite Hc].
Qed.

Lemma list_find_alter {A} (P : A → Prop) `{!∀ x, Decision (P x)}
    (f : A → A) (l : list A) i x :
  P (f x) →
  list_find P l = Some (i, x) → list_find P (alter f i l) = Some (i, f x).
Proof.
  intros HP (Hi & _ & Hbefore)%list_find_Some. apply list_find_Some.
  split_and!; [by rewrite list_lookup_alter_eq, Hi|done|].
  intros j y Hj Hlt. rewrite list_lookup_alter_ne in Hj by lia.
  by eapply Hbefore.
Qed.

Lemma Forall2_alter_same {A} (R : A → A → Prop) (f : A → A) (l : list A) i :
  (∀ x, R x x) → (∀ x, R x (f x)) → Forall2 R l (alter f i l).
Proof.
  intros Hrefl Hf.
  assert (∀ k : list A, Forall2 R k k) as Hsame.
  { intros k. induction k; by constructor. }
  revert i. induction l as [|x l IH]; intros [|i]; simpl.
  - constructor.
  - constructor.
  - by constructor.
  - constructor; [done|apply IH].
Qed.

Lemma same_but_schemas_refl a : same_but_schemas a a.
Proof.
  unfold same_but_schemas. split_and!; [done..|].
  destruct (Asset.contains a) as [c|]; [|done]. split_and!; [done..|].
  induction (Contains.parts c); by constructor.
Qed.

Lemma same_but_schemas_set_asset_schema schema a :
  same_but_schemas a (set_asset_schema schema a).
Proof.
  unfold same_but_schemas, set_asset_schema. simpl. split_and!; [done..|].
  destruct (Asset.contains a) as [c|]; [|done]. split_and!; [done..|].
  induction (Contains.parts c); by constructor.
Qed.

Lemma same_but_schemas_set_json_part_schema schema j a :
  same_but_schemas a (set_json_part_schema schema j a).
Proof.
  unfold same_but_schemas, set_json_part_schema. simpl. split_and!; [done..|].
  destruct (Asset.contains a) as [c|]; [|done]. simpl. split_and!; [done..|].
  by apply Forall2_alter_same.
Qed.

Section RecordSchema.
Variable path_dirname : string → string.

(** When [main] saves, it has found an asset under one of the three paths
    it compares with, and has set that asset's own schema or the schema of
    the first JSON part of its combo. *)
Lemma recordSchema_Saved isDirectory inputPath targetPath schema assets assets' :
  recordSchema path_dirname isDirectory inputPath targetPath schema assets
    = Saved assets' →
  ∃ i asset,
    assets !! i = Some asset ∧
    replace_backslashes (Asset.path asset) ∈
      [replace_backslashes inputPath; replace_backslashes targetPath;
       path_dirname (replace_backslashes targetPath)] ∧
    (assets' = alter (set_asset_schema schema) i assets ∨
     ∃ c j part,
       Asset.contains asset = Some c ∧
       list_find (λ p, Part.assetType p = Some "json") (Contains.parts c)
         = Some (j, part) ∧
       assets' = alter (set_json_part_schema schema j) i assets).
Proof.
  unfold recordSchema. intros Hrun.
  assert (∀ i (combo : Asset.t → bool),
            match assets !! i with
            | None => Threw
            | Some asset =>
                if combo asset then
                  match Asset.contains asset with
                  | None => Threw
                  | Some c =>
                      match list_find (λ p, Part.assetType p = Some "json")
                              (Contains.parts c) with
                      | None => Exited
                      | Some (jsonPartIndex, _) =>
                          Saved (alter (set_json_part_schema schema jsonPartIndex)
                                   i assets)
                      end
                  end
                else Saved (alter (set_asset_schema schema) i assets)
            end = Saved assets' →
            ∃ asset, assets !! i = Some asset ∧
              (assets' = alter (set_asset_schema schema) i assets ∨
               ∃ c j part,
                 Asset.contains asset = Some c ∧
                 list_find (λ p, Part.assetType p = Some "json")
                   (Contains.parts c) = Some (j, part) ∧
                 assets' = alter (set_json_part_schema schema j) i assets))
    as Hstore.
  { intros i combo Hi. destruct (assets !! i) as [asset|]; [|done].
    exists asset. split; [done|]. destruct (combo asset).
    - destruct (Asset.contains asset) as [c|]; [|done].
      destruct (list_find _ (Contains.parts c)) as [[j part]|] eqn:Hj; [|done].
      injection Hi as <-. right. by exists c, j, part.
    - injection Hi as <-. by left. }
  destruct isDirectory.
  - match type of Hrun with context [list_find ?P assets] =>
      destruct (list_find P assets) as [[i a]|] eqn:Hfind end; [|done].
    simpl in Hrun.
    apply list_find_Some in Hfind as (Hi & [Hpath _] & _).
    apply (Hstore i (λ asset, bool_decide (contains_type asset = Some "combo")))
      in Hrun as (asset & Hasset & Hcases).
    exists i, asset. split_and!; [done| |done].
    assert (asset = a) as -> by congruence. rewrite Hpath. by left.
  - match type of Hrun with context [list_find ?P assets] =>
      destruct (list_find P assets) as [[i a]|] eqn:Hfind end.
    + apply list_find_Some in Hfind as (Hi & Hpath & _).
      apply (Hstore i (λ _, false)) in Hrun as (asset & Hasset & Hcases).
      exists i, asset. split_and!; [done| |done].
      assert (asset = a) as -> by congruence. rewrite Hpath. right. by left.
    + match type of Hrun with context [list_find ?P assets] =>
        destruct (list_find P assets) as [[i a]|] eqn:Hcombo end; [|done].
      apply list_find_Some in Hcombo as (Hi & [Hpath _] & _).
      apply (Hstore i (λ _, true)) in Hrun as (asset & Hasset & Hcases).
      exists i, asset. split_and!; [done| |done].
      assert (asset = a) as -> by congruence. rewrite Hpath. right. right. by left.
Qed.

(** X6.  When [main] of generate-schema.js saves site-assets.json, the list
    of assets has the same length, every asset keeps its path, type, other
    members, kind of contents and parts (their asset types and other
    members), and all assets but one are the same as before: at most the
    schemas of one asset change. *)
Theorem recordSchema_changes_one_asset
    isDirectory inputPath targetPath schema assets assets' :
  recordSchema path_dirname isDirectory inputPath targetPath schema assets
    = Saved assets' →
  Forall2 same_but_schemas assets assets' ∧
  ∃ i, ∀ k, k ≠ i → assets' !! k = assets !! k.
Proof.
  intros (i & asset & _ & _ & [->|(c & j & part & _ & _ & ->)])%recordSchema_Saved.
  - split.
    + apply Forall2_alter_same;
        [apply same_but_schemas_refl|apply same_but_schemas_set_asset_schema].
    + exists i. intros k Hk. by rewrite list_lookup_alter_ne.
  - split.
    + apply Forall2_alter_same;
        [apply same_but_schemas_refl|apply same_but_schemas_set_json_part_schema].
    + exists i. intros k Hk. by rewrite list_lookup_alter_ne.
Qed.

(** X7.  When [main] of generate-schema.js saves site-assets.json, the
    schema it was given can be read back: some asset whose path, with
    slashes for backslashes, is the input, the target or the target's
    directory, has it as its own schema or as the schema of its first JSON
    part. *)
Theorem recordSchema_stores_the_schema
    isDirectory inputPath targetPath schema assets assets' :
  recordSchema path_dirname isDirectory inputPath targetPath schema assets
    = Saved assets' →
  ∃ i asset',
    assets' !! i = Some asset' ∧
    replace_backslashes (Asset.path asset') ∈
      [replace_backslashes inputPath; replace_backslashes targetPath;
       path_dirname (replace_backslashes targetPath)] ∧
    (Asset.schema asset' = Some (Inferred schema) ∨
     ∃ c' j part',
       Asset.contains asset' = Some c' ∧
       list_find (λ p, Part.assetType p = Some "json") (Contains.parts c')
         = Some (j, part') ∧
       Part.schema part' = Some (Inferred schema)).
Proof.
  intros (i & asset & Hi & Hpath &
          [->|(c & j & part & Hc & Hj & ->)])%recordSchema_Saved.
  - exists i, (set_asset_schema schema asset).
    rewrite list_lookup_alter_eq, Hi. split_and!; [done..|]. by left.
  - exists i, (set_json_part_schema schema j asset).
    rewrite list_lookup_alter_eq, Hi. split_and!; [done..|]. right.
    unfold set_json_part_schema. simpl. rewrite Hc. simpl.
    eexists _, j, (set_part_schema schema part). split_and!; [done| |done].
    assert (Part.assetType part = Some "json") as Hjson.
    { pose proof Hj as Hj'. by apply list_find_Some in Hj' as (_ & ? & _). }
    simpl.
    by apply (list_find_alter (λ p, Part.assetType p = Some "json")
                (set_part_schema schema)).
Qed.
End RecordSchema.

(** ** Putting an asset into site-assets.json *)

Lemma putAsset_elem targetPath asset assets :
  asset ∈ putAsset targetPath asset assets.
Proof.
  unfold putAsset. destruct (list_find _ assets) as [[i x]|] eqn:Hfind.
  - apply list_find_Some in Hfind as (Hi & _ & _).
    apply (list_elem_of_lookup_2 _ i), list_lookup_insert_eq.
    by eapply lookup_lt_Some.
  - apply elem_of_app. right. by left.
Qed.

(** X8.  After the add-asset tool has put an asset into the list, the first
    asset listed under the target path is that asset: looking the path up
    finds what was put (over an older asset of the same path, or at the
    end). *)
Theorem putAsset_then_find targetPath asset assets :
  Asset.path asset = targetPath →
  ∃ i, list_find (λ a, Asset.path a = targetPath)
         (putAsset targetPath asset assets) = Some (i, asset) ∧
       (i ≤ length assets)%nat.
Proof.
  intros Hpath. unfold putAsset.
  destruct (list_find _ assets) as [[i x]|] eqn:Hfind.
  - apply list_find_Some in Hfind as (Hi & _ & Hbefore).
    pose proof (lookup_lt_Some _ _ _ Hi) as Hlt.
    exists i. split; [|lia]. apply list_find_Some. split_and!.
    + by apply list_lookup_insert_eq.
    + done.
    + intros j y Hj Hji. rewrite list_lookup_insert_ne in Hj by lia.
      by eapply Hbefore.
  - exists (length assets). split; [|done]. apply list_find_Some. split_and!.
    + by rewrite lookup_app_r, Nat.sub_diag.
    + done.
    + intros j y Hj Hlt. rewrite lookup_app_l in Hj by done.
      apply list_find_None in Hfind.
      apply (proj1 (Forall_forall _ _) Hfind y). by eapply list_elem_of_lookup_2.
Qed.

(** X9.  If the assets have distinct paths, they still have after the
    add-asset tool has put an asset under the target path, and the list then
    holds that asset and the former assets of other paths, no more and no
    less. *)
Theorem putAsset_keeps_paths_distinct targetPath asset assets :
  Asset.path asset = targetPath →
  NoDup (Asset.path <$> assets) →
  NoDup (Asset.path <$> putAsset targetPath asset assets) ∧
  ∀ a, a ∈ putAsset targetPath asset assets ↔
       a = asset ∨ (a ∈ assets ∧ Asset.path a ≠ targetPath).
Proof.
  intros Hpath Hnd. unfold putAsset.
  destruct (list_find _ assets) as [[i x]|] eqn:Hfind.
  - apply list_find_Some in Hfind as (Hi & Hx & _).
    assert ((Asset.path <$> assets) !! i = Some targetPath) as Hpi.
    { by rewrite list_lookup_fmap, Hi, <-Hx. }
    split.
    + rewrite list_fmap_insert, Hpath. by rewrite list_insert_id.
    + intros a. split.
      * intros (j & Hj)%list_elem_of_lookup_1.
        destruct (decide (j = i)) as [->|Hne].
        { rewrite list_lookup_insert_eq in Hj by by eapply lookup_lt_Some.
          left. congruence. }
        rewrite list_lookup_insert_ne in Hj by done. right.
        split; [by eapply list_elem_of_lookup_2|]. intros Ha. apply Hne.
        apply (NoDup_lookup _ j i targetPath Hnd); [|done].
        by rewrite list_lookup_fmap, Hj, <-Ha.
      * intros [->|[(j & Hj)%list_elem_of_lookup_1 Hne]].
        { apply (list_elem_of_lookup_2 _ i), list_lookup_insert_eq.
          by eapply lookup_lt_Some. }
        apply (list_elem_of_lookup_2 _ j). rewrite list_lookup_insert_ne; [done|].
        intros ->. apply Hne. congruence.
  - apply list_find_None in Hfind. split.
    + rewrite fmap_app. apply NoDup_app. split_and!; [done| |apply NoDup_singleton].
      intros p (a & -> & Ha)%list_elem_of_fmap ?%list_elem_of_singleton.
      apply (proj1 (Forall_forall _ _) Hfind a Ha). simpl in *. congruence.
    + intros a. rewrite elem_of_app, list_elem_of_singleton. split.
      * intros [Ha| ->]; [right|by left]. split; [done|].
        by apply (proj1 (Forall_forall _ _) Hfind a).
      * intros [->|[Ha _]]; [by right|by left].
Qed.

(** X10.  The two tools together: once add-asset has put a file asset under
    a target path, generate-schema run on a file whose path is that path up
    to the direction of the slashes always finds an asset for it and saves
    the schema as that asset's own schema; it never falls back to printing
    the schema or to a combo directory. *)
Theorem putAsset_then_recordSchema
    (path_dirname : string → string) inputPath schemaTarget targetPath
    asset assets schema :
  Asset.path asset = targetPath →
  replace_backslashes schemaTarget = replace_backslashes targetPath →
  ∃ i a,
    list_find (λ a, replace_backslashes (Asset.path a)
                      = replace_backslashes schemaTarget)
      (putAsset targetPath asset assets) = Some (i, a) ∧
    recordSchema path_dirname false inputPath schemaTarget schema
      (putAsset targetPath asset assets)
    = Saved (alter (set_asset_schema schema) i (putAsset targetPath asset assets)).
Proof.
  intros Hpath Hnorm.
  destruct (list_find_elem_of
              (λ a, replace_backslashes (Asset.path a)
                      = replace_backslashes schemaTarget)
              (putAsset targetPath asset assets) asset) as [[i a] Hfind].
  { apply putAsset_elem. }
  { by rewrite Hpath. }
  exists i, a. split; [done|].
  unfold recordSchema. rewrite Hfind.
  apply list_find_Some in Hfind as (Hi & _ & _). by rewrite Hi.
Qed.

(** ** The variable name of a handler *)

Lemma lower_of_upper c :
  is_upper c = true → is_alnum (lower c) = true ∧ is_upper (lower c) = false.
Proof.
  destruct c as [[] [] [] [] [] [] [] []]; vm_compute; by intros.
Qed.

Lemma strip_non_alnum_get s i c :
  String.get i (strip_non_alnum s) = Some c → is_alnum c = true.
Proof.
  revert i. induction s as [|c' s IH]; intros i; simpl; [done|].
  destruct (is_alnum c') eqn:Hc'; [|apply IH].
  destruct i as [|i]; simpl; [by intros [= <-]|apply IH].
Qed.

Lemma strip_non_alnum_alnum s :
  (∀ i c, String.get i s = Some c → is_alnum c = true) →
  strip_non_alnum s = s.
Proof.
  induction s as [|c s IH]; intros Hall; [done|]. simpl.
  rewrite (Hall 0 c) by done. f_equal. apply IH.
  intros i c' Hi. by apply (Hall (S i)).
Qed.

Lemma strip_non_alnum_length s :
  (String.length (strip_non_alnum s) ≤ String.length s)%nat.
Proof.
  induction s as [|c s IH]; simpl; [done|]. destruct (is_alnum c); simpl; lia.
Qed.

(** X11.  The variable name that [generateHandlerFile] derives from a label
    holds letters and digits only, does not begin with a capital letter, is
    no longer than the label, and is its own variable name. *)
Theorem varName_letters_and_digits label :
  (∀ i c, String.get i (varName label) = Some c → is_alnum c = true) ∧
  (∀ c, String.get 0 (varName label) = Some c → is_upper c = false) ∧
  (String.length (varName label) ≤ String.length label)%nat ∧
  varName (varName label) = varName label.
Proof.
  unfold varName.
  pose proof (strip_non_alnum_get label) as Hstrip.
  pose proof (strip_non_alnum_length label) as Hlen.
  destruct (strip_non_alnum label) as [|c s] eqn:Heq; [by split_and!|].
  simpl in *. destruct (is_upper c) eqn:Hc.
  - destruct (lower_of_upper c Hc) as [Halnum Hlower].
    assert (∀ i c', String.get i (String (lower c) s) = Some c' →
                    is_alnum c' = true) as Hall.
    { intros [|i] c'; simpl; [by intros [= <-]|]. intros Hi.
      by apply (Hstrip (S i)). }
    split_and!; [done| |done|].
    + by intros c' [= <-].
    + rewrite (strip_non_alnum_alnum _ Hall). simpl. by rewrite Hlower.
  - split_and!; [done| |done|].
    + by intros c' [= <-].
    + rewrite (strip_non_alnum_alnum (String c s) Hstrip). simpl. by rewrite Hc.
Qed.

(** * The further properties at the sample data *)

Lemma sampleDocument_represented :
  represents sampleHeap (VObject 3) sampleDocument.
Proof.
  apply (represents_array _ 3 [VObject 4; VObject 5]); [reflexivity|].
  constructor; [|constructor; [|constructor]].
  - apply (represents_object _ 4 [("a", one)]); [reflexivity|].
    constructor; [|constructor]. split; [reflexivity|constructor].
  - apply (represents_object _ 5 [("a", two); ("b", VString "x")]);
      [reflexivity|].
    constructor; [|constructor; [|constructor]];
      (split; [reflexivity|constructor]).
Defined.

Lemma inferSchema_on_documents_witness :
  inferSchema (platform := sampleHost) (S (depth sampleDocument) + 0)
      (VObject 3) sampleStore =
    Some (inferJSON (platform := sampleHost) sampleDocument, sampleStore).
Proof.
  apply (inferSchema_on_documents (platform := sampleHost)
           (VObject 3) sampleStore sampleDocument 0).
  - exact sampleDocument_represented.
  - reflexivity.
Defined.

Lemma inferSchema_returns_without_array_cycles_witness :
  ∃ (fuel : nat) f,
    inferSchema (platform := sampleHost) fuel (VObject 0) loopStore
      = Some (f, loopStore).
Proof.
  apply (inferSchema_returns_without_array_cycles (platform := sampleHost)
           {[0; 1; 2]} (λ a, match a with 1 => 1 | _ => 0 end)).
  - intros a [= <-]. set_solver.
  - intros a b Ha Hb.
    apply elem_of_union in Ha as [Ha|Ha%elem_of_singleton];
      [apply elem_of_union in Ha as [Ha%elem_of_singleton|Ha%elem_of_singleton]|];
      subst a; simpl in Hb.
    + apply list_elem_of_singleton in Hb. injection Hb as ->. set_solver.
    + apply elem_of_cons in Hb as [Hb|Hb]; [injection Hb as ->; set_solver|].
      apply list_elem_of_singleton in Hb. injection Hb as ->. set_solver.
    + apply list_elem_of_singleton in Hb. discriminate.
  - intros a b vs vs' Ha Hvs Hb Hvs'.
    apply elem_of_union in Ha as [Ha|Ha%elem_of_singleton];
      [apply elem_of_union in Ha as [Ha%elem_of_singleton|Ha%elem_of_singleton]|];
      subst a; simpl in Hvs; [discriminate| |].
    + injection Hvs as <-.
      apply elem_of_cons in Hb as [Hb|Hb]; [injection Hb as ->; discriminate|].
      apply list_elem_of_singleton in Hb. injection Hb as ->. simpl. lia.
    + injection Hvs as <-. apply list_elem_of_singleton in Hb. discriminate.
Defined.

Lemma inferSchema_result_kinds_witness :
  type (objectOf (<["self" := typed "object"]> (<["n" := typed "integer"]> ∅))
          ["n"; "self"])
    ∈ Some <$> ["null"; "array"; "object"; "string"; "integer"; "number";
                "boolean"] ∧
  (∀ x, format (objectOf (<["self" := typed "object"]>
                            (<["n" := typed "integer"]> ∅)) ["n"; "self"])
          = Some x →
        type (objectOf (<["self" := typed "object"]>
                          (<["n" := typed "integer"]> ∅)) ["n"; "self"])
          = Some "string" ∧
        x ∈ ["uri"; "email"; "date"; "date-time"]) ∧
  (is_Some (items (objectOf (<["self" := typed "object"]>
                               (<["n" := typed "integer"]> ∅)) ["n"; "self"]))
   ↔ type (objectOf (<["self" := typed "object"]>
                       (<["n" := typed "integer"]> ∅)) ["n"; "self"])
       = Some "array") ∧
  (is_Some (properties (objectOf (<["self" := typed "object"]>
                                    (<["n" := typed "integer"]> ∅)) ["n"; "self"]))
   ↔ is_Some (required (objectOf (<["self" := typed "object"]>
                                    (<["n" := typed "integer"]> ∅)) ["n"; "self"]))) ∧
  (is_Some (properties (objectOf (<["self" := typed "object"]>
                                    (<["n" := typed "integer"]> ∅)) ["n"; "self"]))
   → type (objectOf (<["self" := typed "object"]>
                       (<["n" := typed "integer"]> ∅)) ["n"; "self"])
       = Some "object").
Proof.
  apply (inferSchema_result_kinds (platform := sampleHost)
           2 (VObject 7) sampleStore _ sampleStore).
  reflexivity.
Defined.

Lemma unifySchemas_anyOf_iff_witness :
  is_Some (anyOf (unifySchemas [typed "integer"; typed "string"])) ↔
  ∃ s1 s2, s1 ∈ [typed "integer"; typed "string"] ∧
           s2 ∈ [typed "integer"; typed "string"] ∧ type s1 ≠ type s2.
Proof.
  apply (unifySchemas_anyOf_iff [typed "integer"; typed "string"]).
  intros s Hs. apply elem_of_cons in Hs as [->|Hs]; [reflexivity|].
  apply list_elem_of_singleton in Hs as ->. reflexivity.
Defined.

Lemma alike_documents_same_schema_witness :
  inferSchema (platform := sampleHost) 2 (VObject 4) sampleStore =
    Some (objectOf (<["a" := typed "integer"]> ∅) ["a"], sampleStore) ∧
  inferSchema (platform := sampleHost) 2 (VObject 3) loopStore =
    Some (objectOf (<["a" := typed "integer"]> ∅) ["a"], loopStore) ∧
  objectOf (<["a" := typed "integer"]> ∅) ["a"] =
    objectOf (<["a" := typed "integer"]> ∅) ["a"].
Proof.
  split; [reflexivity|]. split; [reflexivity|].
  apply (alike_documents_same_schema (platform := sampleHost)
           (VObject 4) (VObject 3) sampleStore loopStore
           (JObject [("a", JNumber (Finite 1 0))])
           (JObject [("a", JNumber (Finite 2 0))])
           2 2 _ _ sampleStore loopStore).
  - apply (represents_object _ 4 [("a", one)]); [reflexivity|].
    constructor; [|constructor]. split; [reflexivity|constructor].
  - apply (represents_object _ 3 [("a", two)]); [reflexivity|].
    constructor; [|constructor]. split; [reflexivity|constructor].
  - reflexivity.
  - reflexivity.
  - constructor. constructor; [|constructor].
    split; [reflexivity|]. by constructor.
  - reflexivity.
  - reflexivity.
Defined.

Lemma recordSchema_changes_one_asset_witness :
  Forall2 same_but_schemas sampleAssets
    (alter (set_json_part_schema (typed "object") 1) 1 sampleAssets) ∧
  ∃ i, ∀ k, k ≠ i →
    alter (set_json_part_schema (typed "object") 1) 1 sampleAssets !! k
      = sampleAssets !! k.
Proof.
  apply (recordSchema_changes_one_asset sample_dirname false
           "gallery\item1.json" "gallery\item1.json" (typed "object")
           sampleAssets).
  reflexivity.
Defined.

Lemma recordSchema_stores_the_schema_witness :
  ∃ i asset',
    alter (set_asset_schema (typed "object")) 0 sampleAssets !! i = Some asset' ∧
    replace_backslashes (Asset.path asset') ∈
      [replace_backslashes "content/property.json";
       replace_backslashes "content/property.json";
       sample_dirname (replace_backslashes "content/property.json")] ∧
    (Asset.schema asset' = Some (Inferred (typed "object")) ∨
     ∃ c' j part',
       Asset.contains asset' = Some c' ∧
       list_find (λ p, Part.assetType p = Some "json") (Contains.parts c')
         = Some (j, part') ∧
       Part.schema part' = Some (Inferred (typed "object"))).
Proof.
  apply (recordSchema_stores_the_schema sample_dirname false
           "content/property.json" "content/property.json" (typed "object")
           sampleAssets).
  reflexivity.
Defined.

Lemma putAsset_then_find_witness :
  ∃ i, list_find (λ a, Asset.path a = "content/about.json")
         (putAsset "content/about.json" sampleNewAsset sampleAssets)
         = Some (i, sampleNewAsset) ∧
       (i ≤ length sampleAssets)%nat.
Proof.
  apply (putAsset_then_find "content/about.json" sampleNewAsset sampleAssets).
  reflexivity.
Defined.

Lemma putAsset_keeps_paths_distinct_witness :
  NoDup (Asset.path <$> putAsset "content/about.json" sampleNewAsset sampleAssets) ∧
  ∀ a, a ∈ putAsset "content/about.json" sampleNewAsset sampleAssets ↔
       a = sampleNewAsset ∨
       (a ∈ sampleAssets ∧ Asset.path a ≠ "content/about.json").
Proof.
  apply (putAsset_keeps_paths_distinct
           "content/about.json" sampleNewAsset sampleAssets).
  - reflexivity.
  - apply NoDup_cons. split; [|apply NoDup_singleton].
    intros Hin%list_elem_of_singleton. discriminate.
Defined.

Lemma putAsset_then_recordSchema_witness :
  ∃ i a,
    list_find (λ a, replace_backslashes (Asset.path a)
                      = replace_backslashes "content\about.json")
      (putAsset "content/about.json" sampleNewAsset sampleAssets) = Some (i, a) ∧
    recordSchema sample_dirname false "content\about.json" "content\about.json"
      (typed "object") (putAsset "content/about.json" sampleNewAsset sampleAssets)
    = Saved (alter (set_asset_schema (typed "object")) i
               (putAsset "content/about.json" sampleNewAsset sampleAssets)).
Proof.
  apply (putAsset_then_recordSchema sample_dirname "content\about.json"
           "content\about.json" "content/about.json" sampleNewAsset sampleAssets
           (typed "object")).
  - reflexivity.
  - reflexivity.
Defined.

Lemma inferSchema_required_matches_witness :
  required_matches_properties
    (objectOf (<["b" := typed "string"]> (<["a" := typed "integer"]> ∅))
       ["a"; "b"]) ∧
  (is_Some (required (objectOf (<["b" := typed "string"]>
                                  (<["a" := typed "integer"]> ∅)) ["a"; "b"])) →
   required (objectOf (<["b" := typed "string"]>
                         (<["a" := typed "integer"]> ∅)) ["a"; "b"])
     = Some [("a", two); ("b", VString "x")].*1).
Proof.
  apply (inferSchema_required_matches (platform := sampleHost)
           2 5 sampleStore [("a", two); ("b", VString "x")] _ sampleStore).
  - reflexivity.
  - apply NoDup_cons. split; [|apply NoDup_singleton].
    intros Hin%list_elem_of_singleton. discriminate.
  - intros Hin. apply elem_of_cons in Hin as [Hin|Hin]; [discriminate|].
    apply list_elem_of_singleton in Hin. discriminate.
  - reflexivity.
Defined.

Lemma unifySchemas_required_matches_witness :
  required_matches_properties
    (unifySchemas [objectOf (<["a" := typed "integer"]> ∅) ["a"];
                   typed "object"]).
Proof.
  apply (unifySchemas_required_matches
           [objectOf (<["a" := typed "integer"]> ∅) ["a"]; typed "object"]).
  intros s Hs. apply elem_of_cons in Hs as [->|Hs].
  - split_and!.
    + split; [apply NoDup_singleton|]. intros key.
      rewrite list_elem_of_singleton. simpl.
      rewrite lookup_insert_is_Some, lookup_empty. split.
      * intros ->. by left.
      * intros [->|[_ [? ?]]]; done.
    + split; intros _; by eexists.
    + intros p [= <-]. reflexivity.
  - apply list_elem_of_singleton in Hs as ->. split_and!.
    + exact I.
    + split; by intros [? ?].
    + intros p Hp. discriminate.
Defined.
